(** * Shortest paths over weighted directed graphs

    A shallow embedding of [Source/Algorithms/Graph/bellman-ford.py] and
    [Source/Algorithms/Graph/dijkstra.py], and the properties of the two
    searches.

    Python dictionaries are finite maps ([gmap]) keyed by integer ids, Python
    integers are [Z], lists are lists.  A function body is written in a small
    state-and-exception monad: the state is the frame of the call (the graph
    object the caller passed, and the dictionaries and queue the call
    creates), an exception keeps the state it was raised in. *)

From Stdlib Require Import ZArith List Lia.
From stdpp Require Import gmap list fin_maps.

Local Open Scope Z_scope.

(** ** Exceptions and outcomes *)

(** The exceptions the two functions can raise.  [KeyError] carries the key
    that was looked up, [NegativeEdgeCycleError] its two fields [a] and [b]. *)
Inductive exn : Type :=
| KeyError (key : Z)
| TypeError
| AttributeError
| OverflowError
| NegativeEdgeCycleError (a b : Z).

(** How a piece of code ends: it returns a value, raises, or never comes
    back ([Hang]: a [while] loop that used up the fuel of the model, or a
    [get] on an empty blocking queue). *)
Inductive outcome (A : Type) : Type :=
| Return (a : A)
| Raise (e : exn)
| Hang.
Arguments Return {A} a.
Arguments Raise {A} e.
Arguments Hang {A}.

(** ** The monad *)

Section Monad.
Context {St : Type}.

Definition M (A : Type) : Type := St -> St * outcome A.

Definition ret {A} (a : A) : M A := fun st => (st, Return a).

Definition raise {A} (e : exn) : M A := fun st => (st, Raise e).

Definition hang {A} : M A := fun st => (st, Hang).

Definition bind {A B} (m : M A) (k : A -> M B) : M B :=
  fun st =>
    match m st with
    | (st', Return a) => k a st'
    | (st', Raise e) => (st', Raise e)
    | (st', Hang) => (st', Hang)
    end.

Definition gets {A} (f : St -> A) : M A := fun st => (st, Return (f st)).

Definition modify (f : St -> St) : M unit := fun st => (f st, Return tt).

(** [for x in l: body x] *)
Fixpoint for_each {A} (l : list A) (body : A -> M unit) : M unit :=
  match l with
  | [] => ret tt
  | x :: l' => bind (body x) (fun _ => for_each l' body)
  end.

(** What the body of a [while] loop asks for when it ends. *)
Inductive ctl : Type := Next | Break.

(** [while cond: body], every test of the condition taking one unit of
    fuel. *)
Fixpoint while (fuel : nat) (cond : M bool) (body : M ctl) : M unit :=
  match fuel with
  | O => hang
  | S n =>
      bind cond (fun c =>
        if c
        then bind body (fun r =>
               match r with
               | Next => while n cond body
               | Break => ret tt
               end)
        else ret tt)
  end.
End Monad.

Arguments M : clear implicits.

Declare Scope py_scope.
Delimit Scope py_scope with py.
Notation "'do' x <- m ; k" := (bind m (fun x => k))
  (at level 10, x name, m at level 100, k at level 200,
   format "'[v' 'do'  x  <-  m ; '/' k ']'") : py_scope.
Notation "'run' m ; k" := (bind m (fun _ => k))
  (at level 10, m at level 100, k at level 200,
   format "'[v' 'run'  m ; '/' k ']'") : py_scope.
Local Open Scope py_scope.

(** An expression that reads nothing of the state and may raise. *)
Definition eval {St A} (o : outcome A) : M St A := fun st => (st, o).

(** [d[k]] on a dictionary read from the state. *)
Definition getitem {St V} (d : St -> gmap Z V) (k : Z) : M St V :=
  fun st =>
    match d st !! k with
    | Some v => (st, Return v)
    | None => (st, Raise (KeyError k))
    end.

(** [{ key: v for key in d }], the keys of [d] coming in the order [ks]. *)
Definition dict_of_keys {V} (ks : list Z) (v : V) : gmap Z V :=
  foldl (fun d key => <[key := v]> d) ∅ ks.

(** [ks] is an order in which iterating over the dictionary [d] can give
    its keys. *)
Definition enumerates {V} (ks : list Z) (d : gmap Z V) : Prop :=
  forall k, In k ks <-> is_Some (d !! k).

(** Two runs end alike: in states that [R] relates, with the same
    outcome. *)
Definition sim {St1 St2 A} (R : St1 -> St2 -> Prop)
    (r1 : St1 * outcome A) (r2 : St2 * outcome A) : Prop :=
  R r1.1 r2.1 /\ r1.2 = r2.2.

(** [only_raises E o]: the outcome [o] is a return, or an exception that
    satisfies [E]. *)
Definition only_raises (E : exn -> Prop) {A} (o : outcome A) : Prop :=
  match o with
  | Return _ => True
  | Raise e => E e
  | Hang => False
  end.

Definition is_KeyError (e : exn) : Prop := exists k, e = KeyError k.

Definition is_cycle_error (e : exn) : Prop :=
  exists a b, e = NegativeEdgeCycleError a b.

(** * Bellman-Ford *)

Module BellmanFord.

(** ** Data model *)

Record Vertex : Type := { id : Z }.

Record Edge : Type := { source : Vertex; dest : Vertex; weight : Z }.

Record Graph : Type := { vertices : gmap Z Vertex; edges : list Edge }.

(** A distance is an integer or [float('Infinity')]. *)
Inductive distance : Type := Fin (d : Z) | Infinity.

(** The sum of a distance and an integer, as a number. *)
Definition dist_plus (d : distance) (w : Z) : distance :=
  match d with
  | Fin x => Fin (x + w)
  | Infinity => Infinity
  end.

(** An integer converts to a float when it rounds to a finite one: when
    its magnitude is below [2^1024 - 2^970]. *)
Definition float_limit : Z := 2 ^ 1024 - 2 ^ 970.

Definition fits_float (w : Z) : bool := Z.abs w <? float_limit.

(** [d + w] for an integer [w].  The sum of two integers is an integer.
    To add [w] to [float('Infinity')] Python converts it to a float, and
    raises [OverflowError] when it is too large for one. *)
Definition dist_add (d : distance) (w : Z) : outcome distance :=
  match d with
  | Fin x => Return (Fin (x + w))
  | Infinity => if fits_float w then Return Infinity else Raise OverflowError
  end.

(** [a < b] *)
Definition dist_lt (a b : distance) : bool :=
  match a, b with
  | Fin x, Fin y => x <? y
  | Fin _, Infinity => true
  | Infinity, _ => false
  end.

(** [a > b] *)
Definition dist_gt (a b : distance) : bool := dist_lt b a.

(** The frame of a call: the graph argument and the two dictionaries. *)
Record frame : Type :=
  { g : Graph;
    dists : gmap Z distance;
    prevs : gmap Z (option Z) }.

(** [dists[k] = v] *)
Definition set_dists (k : Z) (v : distance) : M frame unit :=
  modify (fun st =>
    {| g := g st; dists := <[k := v]> (dists st); prevs := prevs st |}).

(** [prevs[k] = v] *)
Definition set_prevs (k : Z) (v : option Z) : M frame unit :=
  modify (fun st =>
    {| g := g st; dists := dists st; prevs := <[k := v]> (prevs st) |}).

(** ** The function *)

(** The body of the inner relaxation loop, for one edge. *)
Definition relax (e : Edge) : M frame unit :=
  do d_source <- getitem dists (id (source e));
  do dist_start_dest <- eval (dist_add d_source (weight e));
  do d_dest <- getitem dists (id (dest e));
  if dist_gt d_dest dist_start_dest
  then (run set_dists (id (dest e)) dist_start_dest;
        set_prevs (id (dest e)) (Some (id (source e))))
  else ret tt.

(** One pass: [for e in g.edges: ...]. *)
Definition relax_pass : M frame unit :=
  do es <- gets (fun st => edges (g st));
  for_each es relax.

(** [range(1, n)] has [n - 1] elements, none when [n] is 0. *)
Definition range1 (n : nat) : list nat := seq 1 (n - 1).

(** [for i in range(1, len(g.vertices)): for e in g.edges: ...] *)
Definition relax_passes : M frame unit :=
  do n <- gets (fun st => size (vertices (g st)));
  for_each (range1 n) (fun _ => relax_pass).

(** The body of the loop that checks for negative weight cycles. *)
Definition check (e : Edge) : M frame unit :=
  do d_source <- getitem dists (id (source e));
  do lhs <- eval (dist_add d_source (weight e));
  do d_dest <- getitem dists (id (dest e));
  if dist_lt lhs d_dest
  then raise (NegativeEdgeCycleError (id (source e)) (id (dest e)))
  else ret tt.

Definition check_cycles : M frame unit :=
  do es <- gets (fun st => edges (g st));
  for_each es check.

(** The frame once the two dictionary comprehensions have run. *)
Definition enter (gr : Graph) : frame :=
  {| g := gr;
     dists := (fun _ => Infinity) <$> vertices gr;
     prevs := (fun _ => None) <$> vertices gr |}.

(** The statements of [bellman_ford] after the comprehensions. *)
Definition body (start_id : Z)
  : M frame (gmap Z distance * gmap Z (option Z)) :=
  run set_dists start_id (Fin 0);
  run relax_passes;
  run check_cycles;
  do st <- gets (fun st => st);
  ret (dists st, prevs st).

(** [bellman_ford(g, start_id)]: the graph object as the call leaves it,
    and the outcome of the call. *)
Definition bellman_ford (gr : Graph) (start_id : Z)
  : Graph * outcome (gmap Z distance * gmap Z (option Z)) :=
  let '(st, r) := body start_id (enter gr) in (g st, r).

(** The frame after the relaxation passes, before the check. *)
Definition after_passes (gr : Graph) (start_id : Z)
  : frame * outcome unit :=
  (run set_dists start_id (Fin 0); relax_passes) (enter gr).

(** ** A run, with the order in which the keys come *)

(** The frame once the two dictionary comprehensions have run, when
    iterating over [g.vertices] gives the keys in the order [ks]. *)
Definition enter_from (ks : list Z) (gr : Graph) : frame :=
  {| g := gr;
     dists := dict_of_keys ks Infinity;
     prevs := dict_of_keys ks None |}.

(** A call, with the frame it ends in. *)
Definition call_from (ks : list Z) (gr : Graph) (start_id : Z)
  : frame * outcome (gmap Z distance * gmap Z (option Z)) :=
  body start_id (enter_from ks gr).

Definition bellman_ford_from (ks : list Z) (gr : Graph) (start_id : Z)
  : Graph * outcome (gmap Z distance * gmap Z (option Z)) :=
  let '(st, r) := call_from ks gr start_id in (g st, r).

(** ** Notions the properties are stated with *)

(** Every edge goes from a declared vertex to a declared vertex. *)
Definition wf_edges (gr : Graph) : Prop :=
  forall e, In e (edges gr) ->
    is_Some (vertices gr !! id (source e)) /\
    is_Some (vertices gr !! id (dest e)).

(** Every weight converts to a float. *)
Definition weights_fit (gr : Graph) : Prop :=
  forall e, In e (edges gr) -> fits_float (weight e) = true.

(** The test of the checking loop on edge [e], in the frame [st], as a
    comparison of numbers: the edge still admits an improvement. *)
Definition improvable (st : frame) (e : Edge) : bool :=
  match dists st !! id (source e), dists st !! id (dest e) with
  | Some d_source, Some d_dest =>
      dist_lt (dist_plus d_source (weight e)) d_dest
  | _, _ => false
  end.

(** [walk gr u v w]: edges of the graph lead from [u] to [v], their
    weights adding up to [w]. *)
Inductive walk (gr : Graph) : Z -> Z -> Z -> Prop :=
| walk_stop u : walk gr u u 0
| walk_edge e v w :
    In e (edges gr) ->
    walk gr (id (dest e)) v w ->
    walk gr (id (source e)) v (weight e + w).

(** The recorded distance of [start_id] is an integer, at most 0. *)
Definition source_at_most_0 (start_id : Z) (st : frame) : Prop :=
  exists d, dists st !! start_id = Some (Fin d) /\ d <= 0.

(** Every end of an edge of [gr] is a key of [dists]. *)
Definition keyed (gr : Graph) (st : frame) : Prop :=
  forall e, In e (edges gr) ->
    is_Some (dists st !! id (source e)) /\
    is_Some (dists st !! id (dest e)).

(** What the relaxation passes keep true on a graph with [wf_edges]. *)
Definition bf_inv (gr : Graph) (start_id : Z) (st : frame) : Prop :=
  g st = gr /\ keyed gr st /\ source_at_most_0 start_id st.

(** ** Graphs of the specification's scenarios *)

Definition V (i : Z) : Vertex := {| id := i |}.
Definition E (u v w : Z) : Edge :=
  {| source := V u; dest := V v; weight := w |}.

Definition declare (ids : list Z) : gmap Z Vertex :=
  list_to_map (map (fun i => (i, V i)) ids).

Definition scenario : Graph :=
  {| vertices := declare [0; 1; 2; 3];
     edges := [E 0 1 1; E 1 2 2; E 0 2 5; E 2 3 1] |}.

Definition two_cycle : Graph :=
  {| vertices := declare [0; 1];
     edges := [E 0 1 (-1); E 1 0 (-1)] |}.

Definition self_loop : Graph :=
  {| vertices := declare [0]; edges := [E 0 0 (-1)] |}.

(** The two-vertex cycle, with one more edge, to an id that is not
    declared. *)
Definition dangling : Graph :=
  {| vertices := declare [0; 1];
     edges := [E 0 1 (-1); E 1 0 (-1); E 0 5 1] |}.

(** The two-vertex cycle, behind an edge whose weight does not convert to
    float, between two more vertices. *)
Definition heavy : Graph :=
  {| vertices := declare [0; 1; 2; 3];
     edges := [E 2 3 (10 ^ 400); E 0 1 (-1); E 1 0 (-1)] |}.

(** One declared vertex with its self-loop, behind an edge between two ids
    that are not declared. *)
Definition stray : Graph :=
  {| vertices := declare [0]; edges := [E 7 8 1; E 0 0 (-1)] |}.

(** The edges of a graph as triples (source id, destination id, weight). *)
Definition edge_triples (gr : Graph) : list (Z * Z * Z) :=
  map (fun e => (id (source e), id (dest e), weight e)) (edges gr).

(** ** Invariants of the relaxation passes *)

(** Every integer distance recorded is the weight of a walk from the start
    vertex. *)
Definition sound (gr : Graph) (start_id : Z) (st : frame) : Prop :=
  forall v x, dists st !! v = Some (Fin x) -> walk gr start_id v x.

(** The keys of the two dictionaries: those of [dists] are the declared
    vertices and the start id, those of [prevs] lie in between. *)
Definition keys_ok (gr : Graph) (start_id : Z) (st : frame) : Prop :=
  dom (dists st) = dom (vertices gr) ∪ {[start_id]} /\
  dom (vertices gr) ⊆ dom (prevs st) /\
  dom (prevs st) ⊆ dom (dists st).

(** [chain gr u es v]: the edges [es] of the graph, one after the other,
    lead from [u] to [v]. *)
Fixpoint chain (gr : Graph) (u : Z) (es : list Edge) (v : Z) : Prop :=
  match es with
  | [] => u = v
  | e :: es' =>
      In e (edges gr) /\ id (source e) = u /\ chain gr (id (dest e)) es' v
  end.

(** The weight of a list of edges. *)
Definition total (es : list Edge) : Z :=
  fold_right (fun e acc => weight e + acc) 0 es.

(** The vertices a list of edges leads to. *)
Definition dests (es : list Edge) : list Z := map (fun e => id (dest e)) es.

(** No closed walk at a vertex that the start vertex reaches has a
    negative weight. *)
Definition no_negative_cycle (gr : Graph) (start_id : Z) : Prop :=
  forall u w c, walk gr start_id u w -> walk gr u u c -> 0 <= c.

(** After [k] passes: a vertex that at most [k] edges lead to from the
    start vertex has an integer distance, at most their weight. *)
Definition bounded (gr : Graph) (start_id : Z) (k : nat) (st : frame)
  : Prop :=
  forall es v, chain gr start_id es v -> (length es <= k)%nat ->
    exists x, dists st !! v = Some (Fin x) /\ x <= total es.

(** A recorded predecessor [u] of [v] is the source of an edge into [v];
    both have integer distances, and that of [v] is at least what the edge
    gives from the distance of [u]. *)
Definition pred_ok (gr : Graph) (st : frame) : Prop :=
  forall v u, prevs st !! v = Some (Some u) ->
    exists e du dv,
      In e (edges gr) /\ id (source e) = u /\ id (dest e) = v /\
      dists st !! u = Some (Fin du) /\ dists st !! v = Some (Fin dv) /\
      du + weight e <= dv.

End BellmanFord.

(** * Dijkstra *)

Module Dijkstra.

(** ** Data model *)

(** An edge holds references to its two end nodes.  The function reads
    nothing of a referenced node but its [id], so the two fields hold the
    [id] of the node they refer to. *)
Record Edge : Type := { source : Z; dest : Z; weight : Z }.

Record Node : Type := { id : Z; edges : list Edge }.

Record Graph : Type := { nodes : gmap Z Node }.

(** The queue holds tuples [(dist, id)], compared as Python compares
    tuples: first components, then second ones. *)
Definition tuple_le (a b : Z * Z) : bool :=
  (a.1 <? b.1) || ((a.1 =? b.1) && (a.2 <=? b.2)).

(** The queue is kept in increasing order, so that [get] takes the head:
    a smallest tuple, as [PriorityQueue.get] returns (tuples that compare
    equal are the same tuple, so which of them comes out first cannot be
    told). *)
Fixpoint insert_sorted (x : Z * Z) (q : list (Z * Z)) : list (Z * Z) :=
  match q with
  | [] => [x]
  | y :: q' => if tuple_le x y then x :: q else y :: insert_sorted x q'
  end.

(** The frame of a call: the graph argument, the two dictionaries and the
    queue.  [prevs] maps a key to [None] or to a node; the function reads
    nothing of such a node but its [id], which is what the map holds. *)
Record frame : Type :=
  { g : Graph;
    prevs : gmap Z (option Z);
    dists : gmap Z (option Z);
    nodePQ : list (Z * Z) }.

(** [dists[k] = v] *)
Definition set_dists (k : Z) (v : option Z) : M frame unit :=
  modify (fun st =>
    {| g := g st; prevs := prevs st;
       dists := <[k := v]> (dists st); nodePQ := nodePQ st |}).

(** [prevs[k] = v] *)
Definition set_prevs (k : Z) (v : option Z) : M frame unit :=
  modify (fun st =>
    {| g := g st; prevs := <[k := v]> (prevs st);
       dists := dists st; nodePQ := nodePQ st |}).

(** [nodePQ.put(x)] *)
Definition put (x : Z * Z) : M frame unit :=
  modify (fun st =>
    {| g := g st; prevs := prevs st;
       dists := dists st; nodePQ := insert_sorted x (nodePQ st) |}).

(** [nodePQ.get()], which blocks on an empty queue. *)
Definition get : M frame (Z * Z) :=
  fun st =>
    match nodePQ st with
    | [] => (st, Hang)
    | x :: q =>
        ({| g := g st; prevs := prevs st; dists := dists st; nodePQ := q |},
         Return x)
    end.

(** [not nodePQ.empty()] *)
Definition not_empty : M frame bool :=
  gets (fun st => match nodePQ st with [] => false | _ => true end).

(** [g.nodes[k]] *)
Definition getnode (k : Z) : M frame Node :=
  getitem (fun st => nodes (g st)) k.

(** ** The function *)

(** The body of the loop over the edges of the current node. *)
Definition relax (currentNode : Node) (edge : Edge) : M frame unit :=
  do p <- getitem prevs (dest edge);
  match p with
  | Some _ => ret tt
  | None =>
      do d <- getitem dists (id currentNode);
      match d with
      | None => raise TypeError
      | Some d =>
          let dist := d + weight edge in
          run set_dists (dest edge) (Some dist);
          run set_prevs (dest edge) (Some (id currentNode));
          put (dist, dest edge)
      end
  end.

(** The body of the main loop. *)
Definition process (endID : Z) : M frame ctl :=
  do item <- get;
  let currentNodeID := item.2 in
  do currentNode <- getnode currentNodeID;
  if bool_decide (currentNodeID = endID)
  then ret Break
  else (run for_each (edges currentNode) (relax currentNode);
        ret Next).

(** The loop that walks back from the end node:
    [while currentNode.id != startID: ...].  [currentNode] holds the [id]
    of the current node, which is all the loop reads of it. *)
Fixpoint walk_back (fuel : nat) (startID currentNode : Z)
    (path_back : list Z) : M frame (list Z) :=
  match fuel with
  | O => hang
  | S n =>
      if bool_decide (currentNode <> startID)
      then do p <- getitem prevs currentNode;
           match p with
           | None => raise AttributeError
           | Some currentNode' =>
               walk_back n startID currentNode' (path_back ++ [currentNode'])
           end
      else ret path_back
  end.

(** The frame once the two dictionary comprehensions have run and the
    queue has been created. *)
Definition enter (gr : Graph) : frame :=
  {| g := gr;
     prevs := (fun _ => None) <$> nodes gr;
     dists := (fun _ => None) <$> nodes gr;
     nodePQ := [] |}.

(** The statements up to the end of the main loop. *)
Definition search (fuel : nat) (startID endID : Z) : M frame unit :=
  run set_dists startID (Some 0);
  do start <- getnode startID;
  run put (0, id start);
  while fuel not_empty (process endID).

(** The statements after the main loop. *)
Definition finish (fuel : nat) (startID endID : Z)
  : M frame (option (list Z) * option Z) :=
  do p <- getitem prevs endID;
  match p with
  | None => ret (None, None)
  | Some _ =>
      do currentNode <- getnode endID;
      do path_back <- walk_back fuel startID (id currentNode) [endID];
      do d <- getitem dists endID;
      ret (Some (rev path_back), d)
  end.

Definition body (fuel : nat) (startID endID : Z)
  : M frame (option (list Z) * option Z) :=
  run search fuel startID endID;
  finish fuel startID endID.

(** [dijkstra(g, startID, endID)]: the graph object as the call leaves
    it, and the outcome of the call.  [fuel] bounds the number of times
    each [while] loop tests its condition. *)
Definition dijkstra (fuel : nat) (gr : Graph) (startID endID : Z)
  : Graph * outcome (option (list Z) * option Z) :=
  let '(st, r) := body fuel startID endID (enter gr) in (g st, r).

(** The frame at the end of the main loop. *)
Definition after_search (fuel : nat) (gr : Graph) (startID endID : Z)
  : frame * outcome unit :=
  search fuel startID endID (enter gr).

(** ** A run, with the queue it uses and the order in which the keys come *)

(** What the function relies on of [queue.PriorityQueue], which keeps its
    items in a list: [put] adds an item to the list, [get] takes an item
    out of it. *)
Record Queue : Type :=
  { q_put : Z * Z -> list (Z * Z) -> list (Z * Z);
    q_get : list (Z * Z) -> option ((Z * Z) * list (Z * Z)) }.

(** A queue does what a priority queue is to do when the lists it builds
    have a property [ok] under which [put] adds the item and no other,
    and [get] finds no item in the empty list only, and otherwise takes
    out one item, no larger than those it leaves. *)
Definition lawful (Q : Queue) : Prop :=
  exists ok : list (Z * Z) -> Prop,
    ok [] /\
    (forall x q, ok q -> ok (q_put Q x q) /\ q_put Q x q ≡ₚ x :: q) /\
    (forall q, ok q ->
       match q_get Q q with
       | None => q = []
       | Some (x, q') =>
           ok q' /\ x :: q' ≡ₚ q /\
           Forall (fun y => tuple_le x y = true) q'
       end).

(** The queue of the model above: the list in increasing order. *)
Definition sorted_queue : Queue :=
  {| q_put := insert_sorted;
     q_get := fun q => match q with [] => None | x :: q' => Some (x, q') end |}.

(** The smallest of [x] and the items of [q], and the others. *)
Fixpoint take_min (x : Z * Z) (q : list (Z * Z)) : (Z * Z) * list (Z * Z) :=
  match q with
  | [] => (x, [])
  | y :: q' =>
      if tuple_le x y
      then let '(m, r) := take_min x q' in (m, y :: r)
      else let '(m, r) := take_min y q' in (m, x :: r)
  end.

(** A queue that keeps the items as they come, and looks for a smallest
    one when asked for it. *)
Definition lazy_queue : Queue :=
  {| q_put := cons;
     q_get := fun q =>
       match q with [] => None | x :: q' => Some (take_min x q') end |}.

(** [nodePQ.put(x)] *)
Definition put_with (Q : Queue) (x : Z * Z) : M frame unit :=
  modify (fun st =>
    {| g := g st; prevs := prevs st;
       dists := dists st; nodePQ := q_put Q x (nodePQ st) |}).

(** [nodePQ.get()], which blocks when there is no item. *)
Definition get_with (Q : Queue) : M frame (Z * Z) :=
  fun st =>
    match q_get Q (nodePQ st) with
    | None => (st, Hang)
    | Some (x, q) =>
        ({| g := g st; prevs := prevs st; dists := dists st; nodePQ := q |},
         Return x)
    end.

Definition relax_with (Q : Queue) (currentNode : Node) (edge : Edge)
  : M frame unit :=
  do p <- getitem prevs (dest edge);
  match p with
  | Some _ => ret tt
  | None =>
      do d <- getitem dists (id currentNode);
      match d with
      | None => raise TypeError
      | Some d =>
          let dist := d + weight edge in
          run set_dists (dest edge) (Some dist);
          run set_prevs (dest edge) (Some (id currentNode));
          put_with Q (dist, dest edge)
      end
  end.

Definition process_with (Q : Queue) (endID : Z) : M frame ctl :=
  do item <- get_with Q;
  let currentNodeID := item.2 in
  do currentNode <- getnode currentNodeID;
  if bool_decide (currentNodeID = endID)
  then ret Break
  else (run for_each (edges currentNode) (relax_with Q currentNode);
        ret Next).

Definition search_with (Q : Queue) (fuel : nat) (startID endID : Z)
  : M frame unit :=
  run set_dists startID (Some 0);
  do start <- getnode startID;
  run put_with Q (0, id start);
  while fuel not_empty (process_with Q endID).

Definition body_with (Q : Queue) (fuel : nat) (startID endID : Z)
  : M frame (option (list Z) * option Z) :=
  run search_with Q fuel startID endID;
  finish fuel startID endID.

(** The frame once the two dictionary comprehensions have run and the
    queue has been created, when iterating over [g.nodes] gives the keys
    in the order [ks]. *)
Definition enter_from (ks : list Z) (gr : Graph) : frame :=
  {| g := gr;
     prevs := dict_of_keys ks None;
     dists := dict_of_keys ks None;
     nodePQ := [] |}.

(** A call, with the frame it ends in. *)
Definition call_with (Q : Queue) (ks : list Z) (fuel : nat) (gr : Graph)
    (startID endID : Z)
  : frame * outcome (option (list Z) * option Z) :=
  body_with Q fuel startID endID (enter_from ks gr).

Definition dijkstra_with (Q : Queue) (ks : list Z) (fuel : nat)
    (gr : Graph) (startID endID : Z)
  : Graph * outcome (option (list Z) * option Z) :=
  let '(st, r) := call_with Q ks fuel gr startID endID in (g st, r).

(** A list of tuples in increasing order. *)
Fixpoint sorted (q : list (Z * Z)) : Prop :=
  match q with
  | [] => True
  | x :: q' => Forall (fun y => tuple_le x y = true) q' /\ sorted q'
  end.

(** The frame of a run with a queue whose lists have the property [ok],
    and the frame of the model above: the same graph and dictionaries,
    the same items in the queue. *)
Definition agree (ok : list (Z * Z) -> Prop) (st st0 : frame) : Prop :=
  g st = g st0 /\ prevs st = prevs st0 /\ dists st = dists st0 /\
  nodePQ st ≡ₚ nodePQ st0 /\ ok (nodePQ st) /\ sorted (nodePQ st0).

(** ** Notions the properties are stated with *)

(** Every node is stored under its own [id]. *)
Definition wf_ids (gr : Graph) : Prop :=
  forall k n, nodes gr !! k = Some n -> id n = k.

(** The number of keys that [prevs] maps to [None]. *)
Definition undiscovered (p : gmap Z (option Z)) : nat :=
  size (filter (fun kv : Z * option Z => kv.2 = None) p).

(** What bounds the number of iterations of the main loop still to come. *)
Definition measure (st : frame) : nat :=
  (length (nodePQ st) + undiscovered (prevs st))%nat.

(** Every id in the queue is a key of the graph and has a distance. *)
Definition queued_ok (gr : Graph) (st : frame) : Prop :=
  forall x, In x (nodePQ st) ->
    is_Some (nodes gr !! x.2) /\ exists d, dists st !! x.2 = Some (Some d).

(** What the main loop keeps true. *)
Definition dj_inv (gr : Graph) (st : frame) : Prop :=
  g st = gr /\ dom (prevs st) = dom (nodes gr) /\ queued_ok gr st.

(** ** Graphs of the specification's scenarios *)

Definition E (u v w : Z) : Edge := {| source := u; dest := v; weight := w |}.

Definition N (i : Z) (es : list Edge) : Node := {| id := i; edges := es |}.

Definition graph_of (ns : list Node) : Graph :=
  {| nodes := list_to_map (map (fun n => (id n, n)) ns) |}.

Definition scenario : Graph :=
  graph_of [N 0 [E 0 1 1; E 0 2 5]; N 1 [E 1 2 2]; N 2 [E 2 3 1]; N 3 []].

(** The same graph, the two edges of node 0 in the other order. *)
Definition scenario' : Graph :=
  graph_of [N 0 [E 0 2 5; E 0 1 1]; N 1 [E 1 2 2]; N 2 [E 2 3 1]; N 3 []].

Definition lone : Graph := graph_of [N 0 []].

Definition looped : Graph := graph_of [N 0 [E 0 0 5; E 0 1 1]; N 1 []].

(** The edges of a graph as triples (id of the node that holds the edge,
    destination id, weight). *)
Definition edge_triples (gr : Graph) : list (Z * Z * Z) :=
  flat_map (fun kn : Z * Node =>
              map (fun e => (id kn.2, dest e, weight e)) (edges kn.2))
           (map_to_list (nodes gr)).

(** ** Notions for what the search finds *)

(** [walk gr u v path w]: edges of the graph lead from node [u] to node
    [v] through the ids of [path], their weights adding up to [w]. *)
Inductive walk (gr : Graph) : Z -> Z -> list Z -> Z -> Prop :=
| walk_stop u : walk gr u u [u] 0
| walk_edge u n e v path w :
    nodes gr !! u = Some n ->
    In e (edges n) ->
    walk gr (dest e) v path w ->
    walk gr u v (u :: path) (weight e + w).

(** The walk grown at its far end, by one edge. *)
Inductive walk_to (gr : Graph) (u : Z) : Z -> list Z -> Z -> Prop :=
| walk_to_stop : walk_to gr u u [u] 0
| walk_to_edge v n e path w :
    walk_to gr u v path w ->
    nodes gr !! v = Some n ->
    In e (edges n) ->
    walk_to gr u (dest e) (path ++ [dest e]) (w + weight e).

(** Every destination of an edge is a key of the graph. *)
Definition closed (gr : Graph) : Prop :=
  forall k n e, nodes gr !! k = Some n -> In e (edges n) ->
    is_Some (nodes gr !! dest e).

(** No edge of the graph leads to [s]. *)
Definition no_edge_into (gr : Graph) (s : Z) : Prop :=
  forall k n e, nodes gr !! k = Some n -> In e (edges n) -> dest e <> s.

(** [v] is the start id, or a key that [prevs] maps to a node. *)
Definition known (s : Z) (st : frame) (v : Z) : Prop :=
  v = s \/ exists u, prevs st !! v = Some (Some u).

(** [traces_back p s v l]: following [p] from [v] reaches [s], through
    the ids of [l], the last of which is [s]; the way stops the first time
    it is at [s]. *)
Inductive traces_back (p : gmap Z (option Z)) (s : Z)
  : Z -> list Z -> Prop :=
| tb_here : traces_back p s s []
| tb_step v u l :
    v <> s -> p !! v = Some (Some u) -> traces_back p s u l ->
    traces_back p s v (u :: l).

(** What the main loop keeps true of the two dictionaries and the queue:
    their keys are those of the graph; the ids in the queue are
    known; a node recorded for [v] is known, holds an edge to [v], and [v]
    has a distance; from every known id [prevs] leads back to the start. *)
Definition tree_inv (gr : Graph) (s : Z) (st : frame) : Prop :=
  dom (prevs st) = dom (nodes gr) /\
  dom (dists st) = dom (nodes gr) /\
  (forall x, In x (nodePQ st) -> known s st x.2) /\
  (forall v u, prevs st !! v = Some (Some u) ->
     known s st u /\
     (exists n e, nodes gr !! u = Some n /\ In e (edges n) /\ dest e = v) /\
     (exists d, dists st !! v = Some (Some d))) /\
  (forall v, known s st v -> exists l, traces_back (prevs st) s v l).

(** What the main loop keeps true of the distances when no edge leads to
    the start node: the start node has distance 0 and no recorded node; a
    node [u] recorded for [v] holds an edge to [v], and the distance of [v]
    is that of [u] plus the weight of the edge. *)
Definition dist_inv (gr : Graph) (s : Z) (st : frame) : Prop :=
  dists st !! s = Some (Some 0) /\
  prevs st !! s = Some None /\
  (forall v u, prevs st !! v = Some (Some u) ->
     exists n e du,
       nodes gr !! u = Some n /\ In e (edges n) /\ dest e = v /\
       dists st !! u = Some (Some du) /\
       dists st !! v = Some (Some (du + weight e))).

(** [v] is the second component of a tuple in the queue. *)
Definition queued (st : frame) (v : Z) : Prop :=
  exists d, In (d, v) (nodePQ st).

(** Every edge that node [v] holds leads to a known id. *)
Definition done (gr : Graph) (s : Z) (st : frame) (v : Z) : Prop :=
  forall n e, nodes gr !! v = Some n -> In e (edges n) ->
    known s st (dest e).

(** Every known id is in the queue, or done, or the current node. *)
Definition closure_inv (gr : Graph) (s : Z) (cur : option Z) (st : frame)
  : Prop :=
  forall v, known s st v -> queued st v \/ done gr s st v \/ cur = Some v.

(** The invariants of the main loop together, between iterations and
    while the edges of node [c] are scanned. *)
Definition core (gr : Graph) (s : Z) (st : frame) : Prop :=
  dj_inv gr st /\ tree_inv gr s st.

Definition core_at (gr : Graph) (s c : Z) (st : frame) : Prop :=
  core gr s st /\ known s st c /\
  exists d, dists st !! c = Some (Some d).

(** The exceptions of a call on a graph that stores every node under its
    own id: a [KeyError] for an id that is not a key of the graph, which is
    the start id, the end id or the destination of an edge. *)
Definition unknown_id (gr : Graph) (s t : Z) (e : exn) : Prop :=
  exists k, e = KeyError k /\ nodes gr !! k = None /\
    (k = s \/ k = t \/
     exists u n e', nodes gr !! u = Some n /\ In e' (edges n) /\
                    dest e' = k).

(** The frame with the head of the queue taken out. *)
Definition popped (st : frame) (q : list (Z * Z)) : frame :=
  {| g := g st; prevs := prevs st; dists := dists st; nodePQ := q |}.

(** The frame once [relax] has discovered the destination of [edge] from
    [currentNode], whose distance is [d]. *)
Definition discovered (currentNode : Node) (edge : Edge) (d : Z)
    (st : frame) : frame :=
  {| g := g st;
     prevs := <[dest edge := Some (id currentNode)]> (prevs st);
     dists := <[dest edge := Some (d + weight edge)]> (dists st);
     nodePQ := insert_sorted (d + weight edge, dest edge) (nodePQ st) |}.

End Dijkstra.

(** * Properties of the monad *)

Section MonadFacts.
Context {St : Type}.
Implicit Types (I : St -> Prop).

(** A state invariant kept by the body is kept by the loop, however the
    loop ends. *)
Lemma for_each_keeps I {A} (l : list A) (body : A -> M St unit) :
  (forall x st, In x l -> I st -> I (body x st).1) ->
  forall st, I st -> I (for_each l body st).1.
Proof.
  induction l as [|x l IH]; intros Hbody st Hst; simpl; [exact Hst|].
  unfold bind. pose proof (Hbody x st (or_introl eq_refl) Hst) as Hx.
  destruct (body x st) as [st' [[]| |]]; simpl in *; try exact Hx.
  apply IH; [|exact Hx]. intros y st0 Hy. apply Hbody. now right.
Qed.

(** When the body keeps the invariant and returns under it, so does the
    loop. *)
Lemma for_each_returns I {A} (l : list A) (body : A -> M St unit) :
  (forall x st, In x l -> I st ->
     I (body x st).1 /\ (body x st).2 = Return tt) ->
  forall st, I st ->
    I (for_each l body st).1 /\ (for_each l body st).2 = Return tt.
Proof.
  induction l as [|x l IH]; intros Hbody st Hst; simpl; [now split|].
  unfold bind.
  destruct (Hbody x st (or_introl eq_refl) Hst) as [Hx Hr].
  destruct (body x st) as [st' o]; simpl in *; subst o.
  apply IH; [|exact Hx]. intros y st0 Hy. apply Hbody. now right.
Qed.

Lemma while_keeps I (cond : M St bool) (body : M St ctl) :
  (forall st, I st -> I (cond st).1) ->
  (forall st, I st -> I (body st).1) ->
  forall fuel st, I st -> I (while fuel cond body st).1.
Proof.
  intros Hc Hb. induction fuel as [|n IH]; intros st Hst; simpl.
  - exact Hst.
  - unfold bind. pose proof (Hc st Hst) as H1.
    destruct (cond st) as [st1 [[]| |]]; simpl in *; try exact H1.
    pose proof (Hb st1 H1) as H2.
    destruct (body st1) as [st2 [[]| |]]; simpl in *; try exact H2.
    now apply IH.
Qed.

Lemma for_each_ends I (E : exn -> Prop) {A} (l : list A)
    (body : A -> M St unit) :
  (forall x st, In x l -> I st ->
     I (body x st).1 /\ only_raises E (body x st).2) ->
  forall st, I st ->
    I (for_each l body st).1 /\ only_raises E (for_each l body st).2.
Proof.
  induction l as [|x l IH]; intros Hbody st Hst; simpl; [now split|].
  unfold bind.
  destruct (Hbody x st (or_introl eq_refl) Hst) as [Hx Hr].
  destruct (body x st) as [st' [[]| |]]; simpl in *; try now split.
  apply IH; [|exact Hx]. intros y st0 Hy. apply Hbody. now right.
Qed.


(** A loop whose condition reads the state without changing it, and whose
    body makes a measure decrease, ends before it has used more fuel than
    the measure. *)
Lemma while_ends I (E : exn -> Prop) (mu : St -> nat)
    (cond : St -> bool) (body : M St ctl) :
  (forall st, I st -> cond st = true ->
     I (body st).1 /\ only_raises E (body st).2 /\
     (mu (body st).1 < mu st)%nat) ->
  forall fuel st, I st -> (mu st < fuel)%nat ->
    I (while fuel (gets cond) body st).1 /\
    only_raises E (while fuel (gets cond) body st).2.
Proof.
  intros Hbody. induction fuel as [|n IH]; intros st Hst Hmu; [lia|].
  simpl. unfold bind, gets.
  destruct (cond st) eqn:Hc; [|now split].
  destruct (Hbody st Hst Hc) as (H1 & H2 & H3).
  destruct (body st) as [st' [[]| |]]; simpl in *; try now split.
  apply IH; [exact H1|lia].
Qed.
End MonadFacts.

(** * Properties of Bellman-Ford *)

Section BellmanFordFacts.
Import BellmanFord.

Lemma dist_gt_Fin_inv d x :
  dist_gt d (Fin x) = false -> exists y, d = Fin y /\ y <= x.
Proof.
  destruct d as [y|]; simpl; [|discriminate].
  intros H. exists y. split; [reflexivity|]. apply Z.ltb_ge in H. lia.
Qed.

(** The addition raises only for [Infinity] and a weight too large for a
    float; otherwise it gives the sum. *)
Lemma dist_add_cases d w :
  dist_add d w = Return (dist_plus d w) \/
  (d = Infinity /\ fits_float w = false /\
   dist_add d w = Raise OverflowError).
Proof.
  destruct d as [x|]; simpl; [now left|].
  destruct (fits_float w); [now left|now right].
Qed.

Lemma dist_add_fits d w :
  fits_float w = true -> dist_add d w = Return (dist_plus d w).
Proof. intros H. destruct d; simpl; [reflexivity|now rewrite H]. Qed.

(** What one relaxation step does, case by case. *)
Lemma relax_unfold_gen e st :
  relax e st =
    match dists st !! id (source e) with
    | None => (st, Raise (KeyError (id (source e))))
    | Some d_source =>
        match dist_add d_source (weight e) with
        | Return dist_start_dest =>
            match dists st !! id (dest e) with
            | None => (st, Raise (KeyError (id (dest e))))
            | Some d_dest =>
                if dist_gt d_dest dist_start_dest
                then ({| g := g st;
                         dists := <[id (dest e) := dist_start_dest]>
                                    (dists st);
                         prevs := <[id (dest e) := Some (id (source e))]>
                                    (prevs st) |}, Return tt)
                else (st, Return tt)
            end
        | Raise ex => (st, Raise ex)
        | Hang => (st, Hang)
        end
    end.
Proof.
  unfold relax, bind, getitem, eval.
  destruct (dists st !! id (source e)) as [ds|]; [|reflexivity].
  destruct (dist_add ds (weight e)) as [x| |]; try reflexivity.
  destruct (dists st !! id (dest e)) as [dd|]; [|reflexivity].
  destruct (dist_gt dd x); reflexivity.
Qed.

(** The same, when the addition does not raise. *)
Lemma relax_unfold_sum e st :
  (forall ds, dists st !! id (source e) = Some ds ->
     dist_add ds (weight e) = Return (dist_plus ds (weight e))) ->
  relax e st =
    match dists st !! id (source e) with
    | None => (st, Raise (KeyError (id (source e))))
    | Some d_source =>
        match dists st !! id (dest e) with
        | None => (st, Raise (KeyError (id (dest e))))
        | Some d_dest =>
            if dist_gt d_dest (dist_plus d_source (weight e))
            then ({| g := g st;
                     dists := <[id (dest e) := dist_plus d_source (weight e)]>
                                (dists st);
                     prevs := <[id (dest e) := Some (id (source e))]>
                                (prevs st) |}, Return tt)
            else (st, Return tt)
        end
    end.
Proof.
  intros Hadd. rewrite relax_unfold_gen.
  destruct (dists st !! id (source e)) as [ds|]; [|reflexivity].
  now rewrite (Hadd ds eq_refl).
Qed.

Lemma relax_unfold e st :
  fits_float (weight e) = true ->
  relax e st =
    match dists st !! id (source e) with
    | None => (st, Raise (KeyError (id (source e))))
    | Some d_source =>
        match dists st !! id (dest e) with
        | None => (st, Raise (KeyError (id (dest e))))
        | Some d_dest =>
            if dist_gt d_dest (dist_plus d_source (weight e))
            then ({| g := g st;
                     dists := <[id (dest e) := dist_plus d_source (weight e)]>
                                (dists st);
                     prevs := <[id (dest e) := Some (id (source e))]>
                                (prevs st) |}, Return tt)
            else (st, Return tt)
        end
    end.
Proof.
  intros Hfit. apply relax_unfold_sum. intros ds _. now apply dist_add_fits.
Qed.

(** A relaxation step leaves the frame as it was, or lowers the distance of
    the edge's destination to what the edge gives from the distance of its
    source, an integer, and records the source as predecessor. *)
Lemma relax_cases e st :
  (relax e st).1 = st \/
  exists x dd,
    dists st !! id (source e) = Some (Fin x) /\
    dists st !! id (dest e) = Some dd /\
    (dd = Infinity \/ exists y, dd = Fin y /\ x + weight e < y) /\
    (relax e st).1 =
      {| g := g st;
         dists := <[id (dest e) := Fin (x + weight e)]> (dists st);
         prevs := <[id (dest e) := Some (id (source e))]> (prevs st) |}.
Proof.
  rewrite relax_unfold_gen.
  destruct (dists st !! id (source e)) as [ds|]; [|now left].
  destruct (dist_add_cases ds (weight e)) as [->|(-> & _ & ->)]; [|now left].
  destruct (dists st !! id (dest e)) as [dd|]; [|now left].
  destruct (dist_gt dd (dist_plus ds (weight e))) eqn:Hgt; [|now left].
  right. destruct ds as [x|]; [|destruct dd; discriminate].
  exists x, dd. repeat split.
  destruct dd as [y|]; [right|now left].
  exists y. split; [reflexivity|]. simpl in Hgt. now apply Z.ltb_lt in Hgt.
Qed.

(** A relaxation step never changes the graph. *)
Lemma relax_graph e st : g (relax e st).1 = g st.
Proof.
  destruct (relax_cases e st) as [->|(x & dd & _ & _ & _ & ->)];
    reflexivity.
Qed.

(** A relaxation step keeps the distance of the start vertex at most 0. *)
Lemma relax_source_at_most_0 s e st :
  source_at_most_0 s st -> source_at_most_0 s (relax e st).1.
Proof.
  intros (d & Hd & Hle).
  destruct (relax_cases e st) as [->|(x & dd & _ & Hdd & Hlt & ->)];
    [now exists d|].
  unfold source_at_most_0; simpl.
  destruct (decide (id (dest e) = s)) as [Heq|Hne].
  - rewrite Heq, lookup_insert_eq. rewrite Heq, Hd in Hdd.
    injection Hdd as <-.
    destruct Hlt as [[=]|(y & [= <-] & Hlt)].
    exists (x + weight e). split; [reflexivity|lia].
  - rewrite lookup_insert_ne by exact Hne. now exists d.
Qed.

(** Whatever edges are relaxed, in whatever order, the distance of the
    start vertex stays at most 0. *)
Lemma schedule_source_at_most_0 s (es : list Edge) st :
  source_at_most_0 s st -> source_at_most_0 s (for_each es relax st).1.
Proof.
  apply for_each_keeps. intros e st' _. apply relax_source_at_most_0.
Qed.

Lemma relax_inv gr s e st :
  weights_fit gr ->
  In e (edges gr) -> bf_inv gr s st ->
  bf_inv gr s (relax e st).1 /\ (relax e st).2 = Return tt.
Proof.
  intros Hfit He (Hg & Hk & Hs).
  split; [split; [|split]|].
  - now rewrite relax_graph.
  - destruct (Hk e He) as [[ds Hds] [dd Hdd]].
    rewrite relax_unfold, Hds, Hdd by now apply Hfit.
    destruct (dist_gt dd (dist_plus ds (weight e))); [|exact Hk].
    intros e' He'. destruct (Hk e' He') as [H1 H2]. simpl.
    split; rewrite lookup_insert; case_decide; eauto.
  - now apply relax_source_at_most_0.
  - destruct (Hk e He) as [[ds Hds] [dd Hdd]].
    rewrite relax_unfold, Hds, Hdd by now apply Hfit.
    now destruct (dist_gt dd (dist_plus ds (weight e))).
Qed.

Lemma relax_pass_inv gr s st :
  weights_fit gr ->
  bf_inv gr s st ->
  bf_inv gr s (relax_pass st).1 /\ (relax_pass st).2 = Return tt.
Proof.
  intros Hfit Hinv. unfold relax_pass, bind, gets.
  pose proof Hinv as (Hg & _). rewrite Hg.
  apply (for_each_returns (bf_inv gr s)); [|exact Hinv].
  intros e st' He. now apply relax_inv.
Qed.

Lemma relax_passes_inv gr s st :
  weights_fit gr ->
  bf_inv gr s st ->
  bf_inv gr s (relax_passes st).1 /\ (relax_passes st).2 = Return tt.
Proof.
  intros Hfit Hinv. unfold relax_passes, bind, gets.
  apply (for_each_returns (bf_inv gr s)); [|exact Hinv].
  intros _ st' _. now apply relax_pass_inv.
Qed.

(** The frame that the passes start from satisfies the invariant. *)
Lemma start_inv gr s :
  wf_edges gr -> bf_inv gr s (set_dists s (Fin 0) (enter gr)).1.
Proof.
  intros Hwf. split; [reflexivity|]. split.
  - intros e He. destruct (Hwf e He) as [[v1 H1] [v2 H2]]. simpl.
    split; rewrite lookup_insert; case_decide; eauto;
      rewrite lookup_fmap; [rewrite H1 | rewrite H2]; simpl; eauto.
  - exists 0. simpl. rewrite lookup_insert_eq. split; [reflexivity|lia].
Qed.

(** On a graph with [wf_edges] whose weights convert to float the passes
    run to their end. *)
Lemma after_passes_returns gr s :
  wf_edges gr -> weights_fit gr ->
  exists st, after_passes gr s = (st, Return tt) /\ bf_inv gr s st.
Proof.
  intros Hwf Hfit. unfold after_passes.
  pose proof (start_inv gr s Hwf) as H0.
  unfold set_dists, modify in *. unfold bind. simpl in *.
  destruct (relax_passes_inv gr s _ Hfit H0) as [Hinv Hret].
  destruct (relax_passes _) as [st o]; simpl in *; subst o.
  now exists st.
Qed.

(** The call, split at the end of the passes. *)
Lemma bellman_ford_unfold gr s :
  bellman_ford gr s =
    match after_passes gr s with
    | (st, Return _) =>
        match check_cycles st with
        | (st', Return _) => (g st', Return (dists st', prevs st'))
        | (st', Raise e) => (g st', Raise e)
        | (st', Hang) => (g st', Hang)
        end
    | (st, Raise e) => (g st, Raise e)
    | (st, Hang) => (g st, Hang)
    end.
Proof.
  unfold bellman_ford, body, after_passes, bind, set_dists, modify.
  simpl. destruct (relax_passes _) as [st [[]| |]]; try reflexivity.
  destruct (check_cycles st) as [st' [[]| |]]; reflexivity.
Qed.

Lemma check_unfold_gen e st :
  check e st =
    match dists st !! id (source e) with
    | None => (st, Raise (KeyError (id (source e))))
    | Some d_source =>
        match dist_add d_source (weight e) with
        | Return lhs =>
            match dists st !! id (dest e) with
            | None => (st, Raise (KeyError (id (dest e))))
            | Some d_dest =>
                if dist_lt lhs d_dest
                then (st, Raise (NegativeEdgeCycleError
                                   (id (source e)) (id (dest e))))
                else (st, Return tt)
            end
        | Raise x => (st, Raise x)
        | Hang => (st, Hang)
        end
    end.
Proof.
  unfold check, bind, getitem, eval.
  destruct (dists st !! id (source e)) as [ds|]; [|reflexivity].
  destruct (dist_add ds (weight e)) as [x| |]; try reflexivity.
  destruct (dists st !! id (dest e)) as [dd|]; [|reflexivity].
  destruct (dist_lt x dd); reflexivity.
Qed.

Lemma check_unfold e st :
  (forall ds, dists st !! id (source e) = Some ds ->
     dist_add ds (weight e) = Return (dist_plus ds (weight e))) ->
  check e st =
    match dists st !! id (source e) with
    | None => (st, Raise (KeyError (id (source e))))
    | Some d_source =>
        match dists st !! id (dest e) with
        | None => (st, Raise (KeyError (id (dest e))))
        | Some d_dest =>
            if dist_lt (dist_plus d_source (weight e)) d_dest
            then (st, Raise (NegativeEdgeCycleError
                               (id (source e)) (id (dest e))))
            else (st, Return tt)
        end
    end.
Proof.
  intros Hadd. rewrite check_unfold_gen.
  destruct (dists st !! id (source e)) as [ds|]; [|reflexivity].
  now rewrite (Hadd ds eq_refl).
Qed.

(** The checking loop raises at the first improvable edge, and returns
    when there is none. *)
Lemma for_each_check (l : list Edge) st :
  (forall e, In e l ->
     is_Some (dists st !! id (source e)) /\
     is_Some (dists st !! id (dest e))) ->
  (forall e ds, In e l -> dists st !! id (source e) = Some ds ->
     dist_add ds (weight e) = Return (dist_plus ds (weight e))) ->
  for_each l check st =
    match find (improvable st) l with
    | Some e =>
        (st, Raise (NegativeEdgeCycleError (id (source e)) (id (dest e))))
    | None => (st, Return tt)
    end.
Proof.
  induction l as [|e l IH]; intros Hk Hadd; simpl; [reflexivity|].
  destruct (Hk e (or_introl eq_refl)) as [[ds Hds] [dd Hdd]].
  unfold bind, improvable.
  rewrite check_unfold by (intros ds'; apply Hadd; now left).
  rewrite Hds, Hdd.
  destruct (dist_lt (dist_plus ds (weight e)) dd); [reflexivity|].
  apply IH.
  - intros e' He'. apply Hk. now right.
  - intros e' ds' He'. apply Hadd. now right.
Qed.

(** When no edge is improvable, a walk from a vertex with an integer
    distance leads to a vertex with an integer distance, which the walk
    does not beat. *)
Lemma settled_walk gr st u v w :
  keyed gr st ->
  (forall e, In e (edges gr) -> improvable st e = false) ->
  walk gr u v w ->
  forall du, dists st !! u = Some (Fin du) ->
  exists dv, dists st !! v = Some (Fin dv) /\ dv <= du + w.
Proof.
  intros Hk Hno Hwalk.
  induction Hwalk as [u|e v w He Hwalk IH]; intros du Hu.
  - exists du. split; [exact Hu|lia].
  - pose proof (Hno e He) as Himp. unfold improvable in Himp.
    destruct (Hk e He) as [_ [dd Hdd]].
    rewrite Hu, Hdd in Himp. simpl in Himp.
    destruct dd as [y|]; [|discriminate].
    apply Z.ltb_ge in Himp.
    destruct (IH y Hdd) as (dv & Hv & Hle).
    exists dv. split; [exact Hv|lia].
Qed.

Lemma check_cycles_unfold st :
  check_cycles st = for_each (edges (g st)) check st.
Proof. reflexivity. Qed.

(** On a graph whose edges join declared vertices and whose weights
    convert to float, with a cycle of negative weight that the start
    vertex reaches, the passes run to their end and the check raises at
    the first edge that is still improvable. *)
Lemma reachable_cycle_flagged gr s u w c :
  wf_edges gr -> weights_fit gr ->
  walk gr s u w -> walk gr u u c -> c < 0 ->
  exists e st,
    In e (edges gr) /\
    after_passes gr s = (st, Return tt) /\
    improvable st e = true /\
    bellman_ford gr s =
      (gr, Raise (NegativeEdgeCycleError (id (source e)) (id (dest e)))).
Proof.
  intros Hwf Hfit Hreach Hcycle Hneg.
  destruct (after_passes_returns gr s Hwf Hfit)
    as (st & Hst & Hg & Hk & Hs).
  rewrite bellman_ford_unfold, Hst, check_cycles_unfold, Hg.
  rewrite for_each_check;
    [|exact Hk|intros e ds He _; apply dist_add_fits; now apply Hfit].
  destruct (find (improvable st) (edges gr)) as [e|] eqn:Hfind.
  - apply find_some in Hfind as [He Himp].
    exists e, st. rewrite Hg. auto.
  - exfalso.
    assert (Hno : forall e, In e (edges gr) -> improvable st e = false)
      by (intros e He; exact (find_none _ _ Hfind e He)).
    destruct Hs as (d & Hd & _).
    destruct (settled_walk gr st s u w Hk Hno Hreach d Hd) as (du & Hu & _).
    destruct (settled_walk gr st u u c Hk Hno Hcycle du Hu) as (du' & Hu' & Hle).
    rewrite Hu in Hu'. injection Hu' as <-. lia.
Qed.

Lemma two_cycle_wf : wf_edges two_cycle.
Proof.
  intros e He. simpl in He.
  destruct He as [<-|[<-|[]]]; split; vm_compute; eauto.
Qed.

Lemma two_cycle_fits : weights_fit two_cycle.
Proof.
  intros e He. simpl in He.
  destruct He as [<-|[<-|[]]]; reflexivity.
Qed.

(** C10, as amended: on a graph whose edges join declared vertices, when
    the only declared vertex carries a self-loop of negative weight, the
    loop over [range(1, len(g.vertices))] has nothing to run
    over, the frame reaches the check as the initialisation left it, and
    the check raises [NegativeEdgeCycleError] for that vertex. *)
Theorem single_vertex_self_loop_raises gr v e :
  dom (vertices gr) = {[v]} -> wf_edges gr ->
  In e (edges gr) -> id (source e) = v -> id (dest e) = v ->
  weight e < 0 ->
  range1 (size (vertices gr)) = [] /\
  after_passes gr v = ((set_dists v (Fin 0) (enter gr)).1, Return tt) /\
  bellman_ford gr v = (gr, Raise (NegativeEdgeCycleError v v)).
Proof.
  intros Hdom Hwf He Hsrc Hdst Hw.
  assert (Hsize : size (vertices gr) = 1%nat).
  { rewrite <- size_dom, Hdom. apply size_singleton. }
  assert (Hpass : after_passes gr v
                  = ((set_dists v (Fin 0) (enter gr)).1, Return tt)).
  { unfold after_passes, relax_passes, bind, gets, set_dists, modify.
    simpl. rewrite Hsize. reflexivity. }
  split; [now rewrite Hsize|]. split; [exact Hpass|].
  assert (Hends : forall e', In e' (edges gr) ->
                    id (source e') = v /\ id (dest e') = v).
  { intros e' He'. destruct (Hwf e' He') as [H1 H2].
    apply elem_of_dom in H1, H2. rewrite Hdom in H1, H2.
    apply elem_of_singleton in H1, H2. now split. }
  rewrite bellman_ford_unfold, Hpass, check_cycles_unfold.
  set (st := (set_dists v (Fin 0) (enter gr)).1).
  assert (Hv : dists st !! v = Some (Fin 0)) by apply lookup_insert_eq.
  rewrite for_each_check.
  2:{ intros e' He'. destruct (Hends e' He') as [-> ->].
      rewrite Hv. eauto. }
  2:{ intros e' ds He'. destruct (Hends e' He') as [-> _].
      rewrite Hv. now intros [= <-]. }
  change (edges (g st)) with (edges gr).
  destruct (find (improvable st) (edges gr)) as [e'|] eqn:Hfind.
  - apply find_some in Hfind as [He' _].
    destruct (Hends e' He') as [-> ->]. reflexivity.
  - exfalso. pose proof (find_none _ _ Hfind e He) as Himp.
    unfold improvable in Himp. rewrite Hsrc, Hdst, Hv in Himp.
    simpl in Himp. apply Z.ltb_ge in Himp. lia.
Qed.

Lemma single_vertex_self_loop_raises_witness :
  range1 (size (vertices self_loop)) = [] /\
  after_passes self_loop 0
    = ((set_dists 0 (Fin 0) (enter self_loop)).1, Return tt) /\
  bellman_ford self_loop 0 = (self_loop, Raise (NegativeEdgeCycleError 0 0)).
Proof.
  apply (single_vertex_self_loop_raises self_loop 0 (E 0 0 (-1))).
  - apply set_eq. intros x. rewrite elem_of_dom, elem_of_singleton.
    unfold self_loop, declare. simpl.
    rewrite lookup_insert. case_decide.
    + split; [congruence|eauto].
    + rewrite lookup_empty. split; [intros [? [=]]|congruence].
  - intros e He. simpl in He.
    destruct He as [<-|[]]; split; vm_compute; eauto.
  - simpl; auto.
  - reflexivity.
  - reflexivity.
  - simpl; lia.
Defined.

(** C10, as stated, fails: vertex 0 is the only declared vertex of
    [stray] and carries a self-loop of weight -1; no pass runs, and the
    check raises [KeyError] at the edge listed before the loop, whose ends
    are not declared. *)
Lemma single_vertex_key_error :
  dom (vertices stray) = {[0]} /\
  In (E 0 0 (-1)) (edges stray) /\
  range1 (size (vertices stray)) = [] /\
  bellman_ford stray 0 = (stray, Raise (KeyError 7)).
Proof.
  split; [|split; [simpl; auto|split; vm_compute; reflexivity]].
  apply set_eq. intros x. rewrite elem_of_dom, elem_of_singleton.
  unfold stray, declare. simpl.
  rewrite lookup_insert. case_decide.
  - split; [congruence|eauto].
  - rewrite lookup_empty. split; [intros [? [=]]|congruence].
Qed.

(** *** The graph is left as it was *)

Lemma relax_passes_graph st : g (relax_passes st).1 = g st.
Proof.
  unfold relax_passes, bind, gets.
  apply (for_each_keeps (fun st' => g st' = g st)); [|reflexivity].
  intros _ st1 _ H1. unfold relax_pass, bind, gets.
  apply (for_each_keeps (fun st' => g st' = g st)); [|exact H1].
  intros e st2 _ H2. now rewrite relax_graph.
Qed.

Lemma check_state e st : (check e st).1 = st.
Proof. rewrite check_unfold_gen. repeat (case_match; try reflexivity). Qed.

Lemma check_cycles_state st : (check_cycles st).1 = st.
Proof.
  rewrite check_cycles_unfold.
  apply (for_each_keeps (fun st' => st' = st)); [|reflexivity].
  intros e st' _ ->. apply check_state.
Qed.

Lemma after_passes_unfold gr s :
  after_passes gr s = relax_passes (set_dists s (Fin 0) (enter gr)).1.
Proof. reflexivity. Qed.

Lemma after_passes_graph gr s : g (after_passes gr s).1 = gr.
Proof. now rewrite after_passes_unfold, relax_passes_graph. Qed.

Lemma bellman_ford_graph gr s : (bellman_ford gr s).1 = gr.
Proof.
  rewrite bellman_ford_unfold.
  pose proof (after_passes_graph gr s) as Hg.
  destruct (after_passes gr s) as [st [[]| |]]; simpl in *; try exact Hg.
  pose proof (check_cycles_state st) as Hc.
  destruct (check_cycles st) as [st' [[]| |]]; simpl in *; now subst st'.
Qed.

(** *** A start id that is not declared *)

Lemma relax_other k e st :
  id (dest e) <> k -> dists (relax e st).1 !! k = dists st !! k.
Proof.
  intros Hne.
  destruct (relax_cases e st) as [->|(x & dd & _ & _ & _ & ->)];
    [reflexivity|].
  simpl. now rewrite lookup_insert_ne.
Qed.

Lemma relax_passes_other gr k st :
  g st = gr ->
  (forall e, In e (edges gr) -> id (dest e) <> k) ->
  dists (relax_passes st).1 !! k = dists st !! k.
Proof.
  intros Hg Hk. unfold relax_passes, bind, gets.
  apply (for_each_keeps
           (fun st' => g st' = gr /\ dists st' !! k = dists st !! k));
    [|now split].
  intros _ st1 _ [Hg1 H1]. unfold relax_pass, bind, gets. rewrite Hg1.
  apply (for_each_keeps
           (fun st' => g st' = gr /\ dists st' !! k = dists st !! k));
    [|now split].
  intros e st2 He [Hg2 H2]. split; [now rewrite relax_graph|].
  rewrite relax_other by auto. exact H2.
Qed.



End BellmanFordFacts.

(** * Properties of Dijkstra *)

Section DijkstraFacts.
Import Dijkstra.

Lemma In_insert_sorted x y q :
  In x (insert_sorted y q) <-> x = y \/ In x q.
Proof.
  induction q as [|z q IH]; simpl.
  - intuition.
  - destruct (tuple_le y z); simpl; [intuition|].
    rewrite IH. intuition.
Qed.

Lemma length_insert_sorted y q :
  length (insert_sorted y q) = S (length q).
Proof.
  induction q as [|z q IH]; simpl; [reflexivity|].
  destruct (tuple_le y z); simpl; [reflexivity|]. now rewrite IH.
Qed.

(** Recording a node for a key that was mapped to [None] leaves one key
    less mapped to [None]. *)
Lemma undiscovered_insert (p : gmap Z (option Z)) k v :
  p !! k = Some None ->
  S (undiscovered (<[k := Some v]> p)) = undiscovered p.
Proof.
  intros Hk. unfold undiscovered.
  rewrite map_filter_insert_False by (simpl; discriminate).
  rewrite map_filter_delete.
  assert (Hin : filter (fun kv : Z * option Z => kv.2 = None) p !! k
                = Some None)
    by (apply map_lookup_filter_Some; split; [exact Hk|reflexivity]).
  rewrite map_size_delete, Hin. simpl.
  assert (size (filter (fun kv : Z * option Z => kv.2 = None) p) <> 0%nat).
  { apply map_size_ne_0_lookup. eauto. }
  lia.
Qed.

Lemma undiscovered_all_None {A} (m : gmap Z A) :
  undiscovered ((fun _ => None) <$> m) = size m.
Proof.
  unfold undiscovered. rewrite map_filter_id.
  - apply map_size_fmap.
  - intros i x Hx. apply lookup_fmap_Some in Hx as (? & <- & _).
    reflexivity.
Qed.

(** What the body of the edge loop does, case by case. *)
Lemma dj_relax_unfold currentNode edge st :
  relax currentNode edge st =
    match prevs st !! dest edge with
    | None => (st, Raise (KeyError (dest edge)))
    | Some (Some _) => (st, Return tt)
    | Some None =>
        match dists st !! id currentNode with
        | None => (st, Raise (KeyError (id currentNode)))
        | Some None => (st, Raise TypeError)
        | Some (Some d) =>
            ({| g := g st;
                prevs := <[dest edge := Some (id currentNode)]> (prevs st);
                dists := <[dest edge := Some (d + weight edge)]> (dists st);
                nodePQ := insert_sorted (d + weight edge, dest edge)
                            (nodePQ st) |},
             Return tt)
        end
    end.
Proof.
  unfold relax, bind, getitem.
  destruct (prevs st !! dest edge) as [[p|]|]; try reflexivity.
  destruct (dists st !! id currentNode) as [[d|]|]; reflexivity.
Qed.

(** The body of the edge loop, run for a current node that has a
    distance: it keeps the invariant, the current node keeps a distance,
    the measure does not change, and nothing but a [KeyError] is raised. *)
Lemma dj_relax_step gr currentNode edge st :
  dj_inv gr st ->
  (exists d, dists st !! id currentNode = Some (Some d)) ->
  let r := relax currentNode edge st in
  (dj_inv gr r.1 /\
   (exists d, dists r.1 !! id currentNode = Some (Some d)) /\
   measure r.1 = measure st) /\
  only_raises is_KeyError r.2.
Proof.
  intros (Hg & Hdom & Hq) [d Hd]. simpl. rewrite dj_relax_unfold.
  destruct (prevs st !! dest edge) as [[p|]|] eqn:Hp; simpl.
  - split; [|exact I]. split; [now split|]. split; eauto.
  - rewrite Hd. simpl. split; [|exact I]. split; [|split].
    + split; [exact Hg|]. split.
      * simpl. rewrite dom_insert_L, <- Hdom.
        assert (Hin : dest edge ∈ dom (prevs st))
          by (apply elem_of_dom; eauto).
        apply set_eq. intros y. rewrite elem_of_union, elem_of_singleton.
        split; [intros [->|Hy]; assumption|auto].
      * intros x Hx. simpl in Hx. apply In_insert_sorted in Hx. simpl.
        assert (Hn : is_Some (nodes gr !! dest edge)).
        { apply elem_of_dom. rewrite <- Hdom. apply elem_of_dom. eauto. }
        destruct Hx as [->|Hx]; simpl.
        -- split; [exact Hn|]. rewrite lookup_insert_eq. eauto.
        -- destruct (Hq x Hx) as [H1 [d' H2]]. split; [exact H1|].
           rewrite lookup_insert. case_decide; eauto.
    + simpl. rewrite lookup_insert. case_decide; eauto.
    + unfold measure. simpl. rewrite length_insert_sorted.
      rewrite <- (undiscovered_insert (prevs st) (dest edge)
                    (id currentNode) Hp). lia.
  - split; [|now exists (dest edge)]. split; [now split|]. split; eauto.
Qed.

(** One iteration of the main loop: it keeps the invariant, raises
    nothing but a [KeyError], and makes the measure decrease. *)
Lemma process_step gr endID st :
  wf_ids gr -> dj_inv gr st ->
  match nodePQ st with [] => false | _ => true end = true ->
  dj_inv gr (process endID st).1 /\
  only_raises is_KeyError (process endID st).2 /\
  (measure (process endID st).1 < measure st)%nat.
Proof.
  intros Hwf (Hg & Hdom & Hq) Hne.
  unfold process, bind, get.
  destruct (nodePQ st) as [|x q] eqn:Hpq; [discriminate|].
  set (st1 := {| g := g st; prevs := prevs st; dists := dists st;
                 nodePQ := q |}).
  assert (Hx : In x (nodePQ st)) by (rewrite Hpq; now left).
  destruct (Hq x Hx) as [[currentNode Hn] Hd].
  assert (Hinv1 : dj_inv gr st1).
  { split; [exact Hg|]. split; [exact Hdom|].
    intros y Hy. apply Hq. rewrite Hpq. now right. }
  assert (Hmu : (measure st1 < measure st)%nat).
  { unfold measure. rewrite Hpq. simpl. lia. }
  unfold getnode, getitem.
  change (nodes (g st1)) with (nodes (g st)). rewrite Hg, Hn.
  destruct (bool_decide (x.2 = endID)); simpl;
    [split; [exact Hinv1|split; [exact I|exact Hmu]]|].
  pose proof (Hwf _ _ Hn) as Hid.
  pose proof (for_each_ends
    (fun st' => dj_inv gr st' /\
                (exists d, dists st' !! id currentNode = Some (Some d)) /\
                measure st' = measure st1)
    is_KeyError (edges currentNode) (relax currentNode)) as Hloop.
  destruct (Hloop) with (st := st1) as [(Hinv' & _ & Hmu') Hends].
  - intros e st' _ (Hi & Hd' & Hm).
    destruct (dj_relax_step gr currentNode e st' Hi Hd')
      as [(H1 & H2 & H3) H4].
    split; [split; [exact H1|split; [exact H2|]]|exact H4].
    rewrite H3. exact Hm.
  - split; [exact Hinv1|]. split; [|reflexivity].
    rewrite Hid. exact Hd.
  - destruct (for_each (edges currentNode) (relax currentNode) st1)
      as [st' [[]| |]]; simpl in *;
      (split; [exact Hinv'|]); (split; [assumption|lia]).
Qed.


(** The call, split at the end of the main loop. *)
Lemma dijkstra_unfold fuel gr s t :
  dijkstra fuel gr s t =
    match after_search fuel gr s t with
    | (st, Return _) =>
        let '(st', r) := finish fuel s t st in (g st', r)
    | (st, Raise e) => (g st, Raise e)
    | (st, Hang) => (g st, Hang)
    end.
Proof.
  unfold dijkstra, body, after_search. unfold bind at 1.
  destruct (search fuel s t (enter gr)) as [st [[]| |]]; reflexivity.
Qed.

(** An unknown start id: the lookup [g.nodes[startID]] raises before the
    queue is touched. *)
Lemma search_unknown_source fuel gr s t :
  nodes gr !! s = None ->
  after_search fuel gr s t
    = ((set_dists s (Some 0) (enter gr)).1, Raise (KeyError s)).
Proof.
  intros Hs. unfold after_search, search, bind, getnode, getitem.
  simpl. rewrite Hs. reflexivity.
Qed.


(** *** The graph is left as it was *)

Lemma dj_relax_graph currentNode edge st :
  g (relax currentNode edge st).1 = g st.
Proof.
  rewrite dj_relax_unfold. repeat (case_match; simpl; try reflexivity).
Qed.

Lemma process_graph endID st : g (process endID st).1 = g st.
Proof.
  unfold process, bind, get, getnode, getitem.
  destruct (nodePQ st) as [|x q]; [reflexivity|]. simpl.
  destruct (nodes (g st) !! x.2) as [currentNode|]; [|reflexivity].
  destruct (bool_decide (x.2 = endID)); [reflexivity|].
  set (st1 := {| g := g st; prevs := prevs st; dists := dists st;
                 nodePQ := q |}).
  pose proof (for_each_keeps (fun st' => g st' = g st)
                (edges currentNode) (relax currentNode)) as Hloop.
  specialize (Hloop (fun e st' _ H =>
                       eq_trans (dj_relax_graph currentNode e st') H)
                    st1 eq_refl).
  destruct (for_each (edges currentNode) (relax currentNode) st1)
    as [st' [[]| |]]; exact Hloop.
Qed.

Lemma search_graph fuel s t st : g (search fuel s t st).1 = g st.
Proof.
  unfold search, bind, getnode, getitem. simpl.
  destruct (nodes (g st) !! s) as [start|]; [|reflexivity]. simpl.
  apply (while_keeps (fun st' => g st' = g st)); try reflexivity.
  - intros st' H. exact H.
  - intros st' H. now rewrite process_graph.
Qed.

Lemma walk_back_state fuel s c path st : (walk_back fuel s c path st).1 = st.
Proof.
  revert c path. induction fuel as [|n IH]; intros c path; simpl;
    [reflexivity|].
  destruct (bool_decide (c <> s)); [|reflexivity].
  unfold bind, getitem.
  destruct (prevs st !! c) as [[c'|]|]; try reflexivity. apply IH.
Qed.

Lemma finish_state fuel s t st : (finish fuel s t st).1 = st.
Proof.
  unfold finish, bind, getnode, getitem.
  destruct (prevs st !! t) as [[p|]|]; try reflexivity.
  destruct (nodes (g st) !! t) as [n|]; [|reflexivity].
  pose proof (walk_back_state fuel s (id n) [t] st) as Hw.
  destruct (walk_back fuel s (id n) [t] st) as [st' [path| |]];
    simpl in Hw; subst st'; try reflexivity.
  now destruct (dists st !! t).
Qed.

Lemma dijkstra_graph fuel gr s t : (dijkstra fuel gr s t).1 = gr.
Proof.
  rewrite dijkstra_unfold. unfold after_search.
  pose proof (search_graph fuel s t (enter gr)) as Hg.
  destruct (search fuel s t (enter gr)) as [st [[]| |]]; simpl in *;
    try exact Hg.
  pose proof (finish_state fuel s t st) as Hf.
  destruct (finish fuel s t st) as [st' r]; simpl in *. now subst st'.
Qed.

(** *** Ids that are not keys of the graph *)

Lemma dijkstra_unknown_source fuel gr s t :
  nodes gr !! s = None ->
  dijkstra fuel gr s t = (gr, Raise (KeyError s)).
Proof.
  intros Hs. rewrite dijkstra_unfold, search_unknown_source by exact Hs.
  reflexivity.
Qed.


(** *** The same id as start and as end *)

(** The main loop stops at its first iteration, no edge relaxed. *)
Lemma search_same_endpoints fuel gr s :
  wf_ids gr -> is_Some (nodes gr !! s) ->
  after_search (S fuel) gr s s
    = ({| g := gr;
          prevs := (fun _ => None) <$> nodes gr;
          dists := <[s := Some 0]> ((fun _ => None) <$> nodes gr);
          nodePQ := [] |}, Return tt).
Proof.
  intros Hwf [start Hs].
  unfold after_search, search, bind, getnode, getitem.
  cbn -[while]. rewrite Hs. cbn -[while]. rewrite (Hwf _ _ Hs).
  cbn [while]. unfold bind, not_empty, gets, process, bind, get, getnode,
    getitem. cbn. rewrite Hs.
  rewrite bool_decide_eq_true_2 by reflexivity. reflexivity.
Qed.

(** X12: on a graph that stores every node under its own id, a call of
    [dijkstra] with the same key as start id and as end id returns
    [(None, None)]; the main loop stops at its first iteration. *)
Lemma dijkstra_same_endpoints fuel gr s :
  wf_ids gr -> is_Some (nodes gr !! s) ->
  dijkstra (S fuel) gr s s = (gr, Return (None, None)).
Proof.
  intros Hwf Hs.
  rewrite dijkstra_unfold, search_same_endpoints by assumption.
  destruct Hs as [start Hs].
  unfold finish, bind, getitem. cbn.
  rewrite lookup_fmap, Hs. reflexivity.
Qed.
End DijkstraFacts.

(** * The claims about single runs *)

Section Scenarios.

(** C1: on the scenario graph, [dijkstra] from 0 to 3 returns the path
    [0, 2, 3] with distance 6, whichever of the two edges of node 0 comes
    first; the shortest path [0, 1, 2, 3] of distance 4 is not what it
    returns, since node 2 keeps the distance of its first discovery. *)
Theorem scenario_first_discovery fuel :
  Dijkstra.dijkstra (6 + fuel) Dijkstra.scenario 0 3
    = (Dijkstra.scenario, Return (Some [0; 2; 3], Some 6)) /\
  Dijkstra.dijkstra (6 + fuel) Dijkstra.scenario' 0 3
    = (Dijkstra.scenario', Return (Some [0; 2; 3], Some 6)).
Proof. split; vm_compute; reflexivity. Qed.

(** C2: on the graph whose only node is 0, [dijkstra] from 0 to 0 returns
    [(None, None)]: [prevs] maps the start id to [None], which is what
    the test after the main loop takes for an end node never reached. *)
Theorem same_endpoints_none fuel :
  Dijkstra.dijkstra (1 + fuel) Dijkstra.lone 0 0
    = (Dijkstra.lone, Return (None, None)).
Proof. vm_compute. reflexivity. Qed.

(** C3: the two scenario graphs have the same vertices and the same
    edges; [bellman_ford] from 0 finds distance 4 for vertex 3, and
    [dijkstra] from 0 to 3 returns distance 6. *)
Theorem scenario_distances_differ fuel :
  dom (BellmanFord.vertices BellmanFord.scenario)
    = dom (Dijkstra.nodes Dijkstra.scenario) /\
  (forall t, In t (BellmanFord.edge_triples BellmanFord.scenario) <->
             In t (Dijkstra.edge_triples Dijkstra.scenario)) /\
  (exists d p,
     BellmanFord.bellman_ford BellmanFord.scenario 0
       = (BellmanFord.scenario, Return (d, p)) /\
     d !! 3 = Some (BellmanFord.Fin 4)) /\
  (Dijkstra.dijkstra (6 + fuel) Dijkstra.scenario 0 3).2
    = Return (Some [0; 2; 3], Some 6).
Proof.
  split; [|split; [|split]].
  - vm_compute. reflexivity.
  - intros t. vm_compute. tauto.
  - eexists _, _. split; vm_compute; reflexivity.
  - vm_compute. reflexivity.
Qed.

(** C4: on the graph where node 0 has a self-loop of weight 5 and an edge
    to node 1, [dijkstra] from 0 to 1 records distance 0 for node 0 at
    initialisation, and distance 5 for it by the end of the main loop. *)
Theorem source_distance_overwritten fuel :
  Dijkstra.dists (Dijkstra.set_dists 0 (Some 0)
                    (Dijkstra.enter Dijkstra.looped)).1 !! 0
    = Some (Some 0) /\
  Dijkstra.dists (Dijkstra.after_search (4 + fuel) Dijkstra.looped 0 1).1
    !! 0 = Some (Some 5).
Proof. split; vm_compute; reflexivity. Qed.

(** C7: on the same graph, [dijkstra] from 0 to 1 returns the path [0, 1]
    with distance 6, and every edge from node 0 to node 1 has weight 1. *)
Theorem path_weight_differs fuel :
  Dijkstra.dijkstra (4 + fuel) Dijkstra.looped 0 1
    = (Dijkstra.looped, Return (Some [0; 1], Some 6)) /\
  (forall t, In t (Dijkstra.edge_triples Dijkstra.looped) ->
     t.1.1 = 0 -> t.1.2 = 1 -> t.2 = 1).
Proof.
  split; [vm_compute; reflexivity|].
  intros t. vm_compute. intros [<-|[<-|[]]]; simpl; congruence.
Qed.
End Scenarios.

(** * The claims about every run *)

Section EveryRun.

(** The half of the source-distance invariant that holds: in
    [bellman_ford] the distance of the start
    vertex is 0 once initialised, and stays at most 0 whatever edges are
    relaxed afterwards, in whatever order. *)
Lemma bellman_ford_source_distance gr s (es : list BellmanFord.Edge) :
  let st0 := (BellmanFord.set_dists s (BellmanFord.Fin 0)
                (BellmanFord.enter gr)).1 in
  BellmanFord.dists st0 !! s = Some (BellmanFord.Fin 0) /\
  BellmanFord.source_at_most_0 s (for_each es BellmanFord.relax st0).1.
Proof.
  simpl. split; [apply lookup_insert_eq|].
  apply schedule_source_at_most_0.
  exists 0. split; [apply lookup_insert_eq|lia].
Qed.


Lemma scenario_wf_ids : Dijkstra.wf_ids Dijkstra.scenario.
Proof.
  intros k n. unfold Dijkstra.scenario, Dijkstra.graph_of. simpl.
  rewrite !lookup_insert_Some, lookup_empty.
  intros H. repeat destruct H as [H|H]; destruct H as [? H];
    try discriminate; try (subst; reflexivity).
  repeat (destruct H as [H|[? H]]; [destruct H; subst; reflexivity|]).
  discriminate.
Qed.

Lemma scenario_wf_edges : BellmanFord.wf_edges BellmanFord.scenario.
Proof.
  intros e He. simpl in He.
  repeat (destruct He as [<-|He]; [split; vm_compute; eauto|]).
  destruct He.
Qed.

Lemma scenario_weights_fit : BellmanFord.weights_fit BellmanFord.scenario.
Proof.
  intros e He. simpl in He.
  repeat (destruct He as [<-|He]; [reflexivity|]).
  destruct He.
Qed.



(** C9: whether the call returns or raises, the graph it leaves is the
    graph it was given. *)
Theorem graph_unchanged fuel (dg : Dijkstra.Graph)
    (bg : BellmanFord.Graph) s t :
  (BellmanFord.bellman_ford bg s).1 = bg /\
  (Dijkstra.dijkstra fuel dg s t).1 = dg.
Proof. split; [apply bellman_ford_graph|apply dijkstra_graph]. Qed.
End EveryRun.

(** * More on Bellman-Ford: what the returned maps hold *)

Section BellmanFordMaps.
Import BellmanFord.

(** What every relaxation step along the edges of the graph keeps, the
    passes keep. *)
Lemma passes_keep gr s (I : frame -> Prop) :
  (forall e st, In e (edges gr) -> g st = gr -> I st -> I (relax e st).1) ->
  I (set_dists s (Fin 0) (enter gr)).1 ->
  I (after_passes gr s).1.
Proof.
  intros Hstep H0. rewrite after_passes_unfold.
  unfold relax_passes, bind, gets.
  pose (J := fun st => g st = gr /\ I st).
  enough (HJ : J (for_each
                   (range1 (size (vertices
                      (g (set_dists s (Fin 0) (enter gr)).1))))
                   (fun _ => relax_pass)
                   (set_dists s (Fin 0) (enter gr)).1).1) by apply HJ.
  apply (for_each_keeps J); [|now split].
  intros _ st1 _ [Hg1 H1]. unfold relax_pass, bind, gets. rewrite Hg1.
  apply (for_each_keeps J); [|now split].
  intros e st2 He [Hg2 H2]. split; [now rewrite relax_graph|].
  now apply Hstep.
Qed.

Lemma walk_snoc gr u v w e :
  walk gr u v w -> In e (edges gr) -> id (source e) = v ->
  walk gr u (id (dest e)) (w + weight e).
Proof.
  intros Hwalk He Hsrc. induction Hwalk as [u|e' v w He' Hwalk IH].
  - subst u. replace (0 + weight e) with (weight e + 0) by lia.
    apply walk_edge; [exact He|apply walk_stop].
  - replace (weight e' + w + weight e) with (weight e' + (w + weight e))
      by lia.
    apply walk_edge; [exact He'|]. now apply IH.
Qed.

Lemma walk_app gr u v z w1 w2 :
  walk gr u v w1 -> walk gr v z w2 -> walk gr u z (w1 + w2).
Proof.
  intros H1 H2. induction H1 as [u|e v w He H1 IH]; [exact H2|].
  replace (weight e + w + w2) with (weight e + (w + w2)) by lia.
  apply walk_edge; [exact He|]. now apply IH.
Qed.

Lemma passes_sound gr s : sound gr s (after_passes gr s).1.
Proof.
  apply passes_keep.
  - intros e st He Hg Hs v x.
    destruct (relax_cases e st) as [->|(y & dd & Hsrc & _ & _ & ->)];
      [apply Hs|].
    simpl. rewrite lookup_insert. case_decide as Hv; [|apply Hs].
    intros [= <-]. subst v. apply (walk_snoc gr s (id (source e))); auto.
  - intros v x. simpl. rewrite lookup_insert. case_decide as Hv.
    + intros [= <-]. subst v. apply walk_stop.
    + rewrite lookup_fmap. destruct (vertices gr !! v); discriminate.
Qed.

Lemma passes_keys_ok gr s : keys_ok gr s (after_passes gr s).1.
Proof.
  apply passes_keep.
  - intros e st He Hg (Hd & Hp1 & Hp2).
    destruct (relax_cases e st) as [->|(y & dd & _ & Hdst & _ & ->)];
      [now repeat split|].
    assert (Hin : id (dest e) ∈ dom (dists st))
      by (apply elem_of_dom; eauto).
    unfold keys_ok. simpl. rewrite !dom_insert_L.
    split; [|split].
    + rewrite <- Hd. apply set_eq. intros k.
      rewrite elem_of_union, elem_of_singleton.
      split; [intros [->|Hk]; assumption|auto].
    + intros k Hk. apply elem_of_union. right. now apply Hp1.
    + intros k. rewrite !elem_of_union, elem_of_singleton.
      intros [->|Hk]; [now left|right; now apply Hp2].
  - unfold keys_ok. simpl. rewrite dom_insert_L, !dom_fmap_L.
    split; [|split].
    + apply set_eq. intros k. rewrite !elem_of_union. tauto.
    + reflexivity.
    + intros k Hk. apply elem_of_union. now right.
Qed.

Lemma passes_pred_ok gr s : pred_ok gr (after_passes gr s).1.
Proof.
  apply passes_keep.
  - intros e st He Hg Hp.
    destruct (relax_cases e st) as [->|(x & dd & Hsrc & Hdst & Hdd & ->)];
      [exact Hp|].
    intros v u. simpl. rewrite lookup_insert. case_decide as Hv.
    + intros [= <-]. subst v.
      destruct (decide (id (dest e) = id (source e))) as [Heq|Hne].
      * (* a self-loop that improves has a negative weight *)
        rewrite Heq in Hdst. rewrite Hsrc in Hdst. injection Hdst as <-.
        destruct Hdd as [[=]|(y & [= <-] & Hlt)].
        exists e, (x + weight e), (x + weight e).
        rewrite Heq, lookup_insert_eq.
        repeat split; try reflexivity; try exact He; try exact (eq_sym Heq).
        lia.
      * exists e, x, (x + weight e). rewrite lookup_insert_eq.
        rewrite lookup_insert_ne by exact Hne.
        repeat split; try reflexivity; assumption.
    + intros Hvu. destruct (Hp v u Hvu) as (e' & du & dv & He' & H1 & H2 & Hu & Hdv & Hle).
      rewrite (lookup_insert_ne _ _ v) by exact Hv.
      destruct (decide (id (dest e) = u)) as [Heq|Hne].
      * rewrite Heq in Hdst |- *. rewrite Hu in Hdst. injection Hdst as <-.
        destruct Hdd as [[=]|(y & [= <-] & Hlt)].
        exists e', (x + weight e), dv. rewrite lookup_insert_eq.
        repeat split; try reflexivity; try assumption. lia.
      * exists e', du, dv. rewrite lookup_insert_ne by exact Hne.
        repeat split; assumption.
  - intros v u. simpl. rewrite lookup_fmap.
    destruct (vertices gr !! v); discriminate.
Qed.

(** When the checking loop returns, it has found the ends of every edge in
    [dists] and no edge improvable. *)
Lemma for_each_check_returns (l : list Edge) st st' :
  for_each l check st = (st', Return tt) ->
  forall e, In e l ->
    (is_Some (dists st !! id (source e)) /\
     is_Some (dists st !! id (dest e))) /\
    improvable st e = false.
Proof.
  induction l as [|e0 l IH]; intros Hrun e He; [destruct He|].
  simpl in Hrun. unfold bind in Hrun. rewrite check_unfold_gen in Hrun.
  unfold improvable.
  destruct (dists st !! id (source e0)) as [ds|] eqn:Hs; [|discriminate].
  destruct (dist_add_cases ds (weight e0)) as [Hadd|(_ & _ & Hadd)];
    rewrite Hadd in Hrun; [|discriminate].
  destruct (dists st !! id (dest e0)) as [dd|] eqn:Hd; [|discriminate].
  destruct (dist_lt (dist_plus ds (weight e0)) dd) eqn:Hlt; [discriminate|].
  destruct He as [<-|He].
  - rewrite Hs, Hd. eauto.
  - now apply IH.
Qed.

(** A call that returns: the passes ran to their end, the maps returned are
    those of the frame they left, and in that frame no edge is improvable. *)
Lemma bellman_ford_returns gr s d p :
  (bellman_ford gr s).2 = Return (d, p) ->
  exists st,
    after_passes gr s = (st, Return tt) /\
    d = dists st /\ p = prevs st /\
    keyed gr st /\
    (forall e, In e (edges gr) -> improvable st e = false).
Proof.
  rewrite bellman_ford_unfold. intros Hret.
  pose proof (after_passes_graph gr s) as Hg.
  destruct (after_passes gr s) as [st [[]| |]]; try discriminate.
  simpl in Hg.
  pose proof (check_cycles_state st) as Hst.
  destruct (check_cycles st) as [st' [[]| |]] eqn:Hc; try discriminate.
  simpl in Hst. subst st'. simpl in Hret. injection Hret as <- <-.
  exists st. rewrite check_cycles_unfold, Hg in Hc.
  do 3 (split; [reflexivity|]).
  split; intros e' He'; now destruct (for_each_check_returns _ _ _ Hc e' He').
Qed.

Lemma passes_source_at_most_0 gr s :
  source_at_most_0 s (after_passes gr s).1.
Proof.
  apply passes_keep.
  - intros e st _ _. apply relax_source_at_most_0.
  - exists 0. simpl. rewrite lookup_insert_eq. split; [reflexivity|lia].
Qed.

(** X1: the maps that [bellman_ford] returns for a declared start vertex
    have the declared vertices as their keys, no more and no fewer. *)
Theorem returned_keys gr s d p :
  (bellman_ford gr s).2 = Return (d, p) ->
  is_Some (vertices gr !! s) ->
  dom d = dom (vertices gr) /\ dom p = dom (vertices gr).
Proof.
  intros Hret Hs.
  destruct (bellman_ford_returns gr s d p Hret) as (st & Hst & -> & -> & _).
  pose proof (passes_keys_ok gr s) as (Hd & Hp1 & Hp2).
  rewrite Hst in Hd, Hp1, Hp2. simpl in *.
  apply elem_of_dom in Hs.
  assert (Hd' : dom (dists st) = dom (vertices gr)).
  { rewrite Hd. apply set_eq. intros k.
    rewrite elem_of_union, elem_of_singleton.
    split; [intros [Hk| ->]; assumption|auto]. }
  split; [exact Hd'|].
  apply set_eq. intros k. split; [|apply Hp1].
  intros Hk. rewrite <- Hd'. now apply Hp2.
Qed.

Lemma returned_keys_witness :
  exists d p,
    (bellman_ford scenario 0).2 = Return (d, p) /\
    dom d = dom (vertices scenario) /\ dom p = dom (vertices scenario).
Proof.
  eexists _, _. split; [vm_compute; reflexivity|].
  apply (returned_keys scenario 0).
  - vm_compute. reflexivity.
  - vm_compute. eauto.
Defined.

(** X2: an integer distance that [bellman_ford] returns for a vertex is the
    weight of a walk from the start vertex to it, and no walk from the
    start vertex to it weighs less. *)
Theorem returned_distance_is_least gr s d p v x :
  (bellman_ford gr s).2 = Return (d, p) ->
  d !! v = Some (Fin x) ->
  walk gr s v x /\ (forall w, walk gr s v w -> x <= w).
Proof.
  intros Hret Hv.
  destruct (bellman_ford_returns gr s d p Hret)
    as (st & Hst & -> & -> & Hk & Hno).
  pose proof (passes_sound gr s) as Hsound. rewrite Hst in Hsound.
  split; [now apply Hsound|].
  intros w Hw.
  pose proof (passes_source_at_most_0 gr s) as Hs. rewrite Hst in Hs.
  destruct Hs as (d0 & H0 & Hle).
  destruct (settled_walk gr st s v w Hk Hno Hw d0 H0) as (x' & Hx' & Hle').
  simpl in Hv. rewrite Hv in Hx'. injection Hx' as <-. lia.
Qed.

Lemma returned_distance_is_least_witness :
  walk scenario 0 3 4 /\ (forall w, walk scenario 0 3 w -> 4 <= w).
Proof.
  eapply (returned_distance_is_least scenario 0 _ _ 3 4).
  - vm_compute. reflexivity.
  - vm_compute. reflexivity.
Defined.

(** X3: when [bellman_ford] returns, every vertex that a walk from the
    start vertex leads to has an integer distance in the returned map, at
    most the weight of the walk. *)
Theorem reachable_has_distance gr s d p v w :
  (bellman_ford gr s).2 = Return (d, p) ->
  walk gr s v w ->
  exists x, d !! v = Some (Fin x) /\ x <= w.
Proof.
  intros Hret Hw.
  destruct (bellman_ford_returns gr s d p Hret)
    as (st & Hst & -> & -> & Hk & Hno).
  pose proof (passes_source_at_most_0 gr s) as Hs. rewrite Hst in Hs.
  destruct Hs as (d0 & H0 & Hle).
  destruct (settled_walk gr st s v w Hk Hno Hw d0 H0) as (x & Hx & Hle').
  exists x. split; [exact Hx|lia].
Qed.

Lemma reachable_has_distance_witness :
  exists d p,
    (bellman_ford scenario 0).2 = Return (d, p) /\
    exists x, d !! 3 = Some (Fin x) /\ x <= 5 + (1 + 0).
Proof.
  eexists _, _. split; [vm_compute; reflexivity|].
  eapply (reachable_has_distance scenario 0 _ _ 3 (5 + (1 + 0))).
  - vm_compute. reflexivity.
  - apply (walk_edge scenario (E 0 2 5)); [simpl; auto|].
    apply (walk_edge scenario (E 2 3 1)); [simpl; auto|].
    apply walk_stop.
Defined.

(** X4: when [bellman_ford] returns, the distance of the start vertex in
    the returned map is 0. *)
Theorem returned_source_distance gr s d p :
  (bellman_ford gr s).2 = Return (d, p) -> d !! s = Some (Fin 0).
Proof.
  intros Hret.
  destruct (bellman_ford_returns gr s d p Hret)
    as (st & Hst & -> & -> & Hk & Hno).
  pose proof (passes_source_at_most_0 gr s) as Hs. rewrite Hst in Hs.
  destruct Hs as (d0 & H0 & Hle).
  pose proof (passes_sound gr s) as Hsound. rewrite Hst in Hsound.
  pose proof (Hsound s d0 H0) as Hloop.
  destruct (settled_walk gr st s s d0 Hk Hno Hloop d0 H0) as (x & Hx & Hle').
  simpl in *. rewrite H0 in Hx. injection Hx as <-.
  rewrite H0. do 2 f_equal. lia.
Qed.

Lemma returned_source_distance_witness :
  exists d p,
    (bellman_ford scenario 0).2 = Return (d, p) /\ d !! 0 = Some (Fin 0).
Proof.
  eexists _, _. split; [vm_compute; reflexivity|].
  eapply (returned_source_distance scenario 0).
  vm_compute. reflexivity.
Defined.

Lemma passes_prev_has_distance gr s v u :
  prevs (after_passes gr s).1 !! v = Some (Some u) ->
  exists x, dists (after_passes gr s).1 !! v = Some (Fin x).
Proof.
  intros Hp.
  destruct (passes_pred_ok gr s v u Hp) as (_ & _ & dv & _ & _ & _ & _ & Hv & _).
  now exists dv.
Qed.

(** X5: when [bellman_ford] returns, a declared vertex that no walk from
    the start vertex leads to has distance [Infinity] and no predecessor. *)
Theorem unreachable_is_infinite gr s d p v :
  (bellman_ford gr s).2 = Return (d, p) ->
  is_Some (vertices gr !! v) ->
  (forall w, ~ walk gr s v w) ->
  d !! v = Some Infinity /\ p !! v = Some None.
Proof.
  intros Hret Hv Hno.
  destruct (bellman_ford_returns gr s d p Hret) as (st & Hst & -> & -> & _).
  pose proof (passes_keys_ok gr s) as (Hd & Hp1 & _).
  pose proof (passes_sound gr s) as Hsound.
  pose proof (passes_prev_has_distance gr s v) as Hprev.
  rewrite Hst in Hd, Hp1, Hsound, Hprev. simpl in *.
  apply elem_of_dom in Hv.
  assert (Hdv : dists st !! v = Some Infinity).
  { assert (Hin : v ∈ dom (dists st))
      by (rewrite Hd; apply elem_of_union; now left).
    apply elem_of_dom in Hin as [[x|] Hx]; [|exact Hx].
    destruct (Hno x). now apply Hsound. }
  split; [exact Hdv|].
  apply Hp1, elem_of_dom in Hv as [[u|] Hu]; [|exact Hu].
  destruct (Hprev u Hu) as [x Hx]. congruence.
Qed.

Lemma unreachable_is_infinite_witness :
  exists d p,
    (bellman_ford scenario 3).2 = Return (d, p) /\
    d !! 0 = Some Infinity /\ p !! 0 = Some None.
Proof.
  eexists _, _. split; [vm_compute; reflexivity|].
  apply (unreachable_is_infinite scenario 3).
  - vm_compute. reflexivity.
  - vm_compute. eauto.
  - intros w Hw. inversion Hw as [|e v w' He _ Hsrc]; subst.
    simpl in He.
    repeat (destruct He as [<-|He]; [discriminate Hsrc|]). destruct He.
Defined.

(** X6: when [bellman_ford] returns, the predecessor recorded for a vertex
    is the source of an edge of the graph into that vertex, and the
    distance of the vertex is the distance of the predecessor plus the
    weight of that edge. *)
Theorem returned_predecessors gr s d p v u :
  (bellman_ford gr s).2 = Return (d, p) ->
  p !! v = Some (Some u) ->
  exists e du dv,
    In e (edges gr) /\ id (source e) = u /\ id (dest e) = v /\
    d !! u = Some (Fin du) /\ d !! v = Some (Fin dv) /\
    dv = du + weight e.
Proof.
  intros Hret Hp.
  destruct (bellman_ford_returns gr s d p Hret)
    as (st & Hst & -> & -> & _ & Hno).
  pose proof (passes_pred_ok gr s) as Hpred. rewrite Hst in Hpred.
  destruct (Hpred v u Hp) as (e & du & dv & He & Hsrc & Hdst & Hu & Hv & Hle).
  exists e, du, dv. repeat split; try assumption.
  pose proof (Hno e He) as Himp. unfold improvable in Himp.
  rewrite Hsrc, Hdst in Himp. simpl in Hu, Hv. rewrite Hu, Hv in Himp.
  simpl in Himp. apply Z.ltb_ge in Himp. lia.
Qed.

Lemma returned_predecessors_witness :
  exists d p,
    (bellman_ford scenario 0).2 = Return (d, p) /\
    exists e du dv,
      In e (edges scenario) /\ id (source e) = 1 /\ id (dest e) = 2 /\
      d !! 1 = Some (Fin du) /\ d !! 2 = Some (Fin dv) /\
      dv = du + weight e.
Proof.
  eexists _, _. split; [vm_compute; reflexivity|].
  eapply (returned_predecessors scenario 0 _ _ 2 1).
  - vm_compute. reflexivity.
  - vm_compute. reflexivity.
Defined.
End BellmanFordMaps.

(** * Bellman-Ford on a graph with a negative cycle *)

Section NegativeCycles.
Import BellmanFord.

Lemma relax_no_hang e st : (relax e st).2 <> Hang.
Proof.
  rewrite relax_unfold_gen.
  destruct (dists st !! id (source e)) as [ds|]; [|discriminate].
  destruct (dist_add_cases ds (weight e)) as [->|(_ & _ & ->)];
    [|discriminate].
  destruct (dists st !! id (dest e)) as [dd|]; [|discriminate].
  destruct (dist_gt dd (dist_plus ds (weight e))); discriminate.
Qed.

Lemma check_no_hang e st : (check e st).2 <> Hang.
Proof.
  rewrite check_unfold_gen.
  destruct (dists st !! id (source e)) as [ds|]; [|discriminate].
  destruct (dist_add_cases ds (weight e)) as [->|(_ & _ & ->)];
    [|discriminate].
  destruct (dists st !! id (dest e)) as [dd|]; [|discriminate].
  destruct (dist_lt (dist_plus ds (weight e)) dd); discriminate.
Qed.

Lemma for_each_no_hang {A} (l : list A) (body : A -> M frame unit) st :
  (forall x st', (body x st').2 <> Hang) ->
  (for_each l body st).2 <> Hang.
Proof.
  intros Hbody. revert st.
  induction l as [|x l IH]; intros st; simpl; [discriminate|].
  unfold bind. pose proof (Hbody x st) as Hx.
  destruct (body x st) as [st' [[]| |]]; simpl in *;
    [apply IH|discriminate|congruence].
Qed.

(** The loops of [bellman_ford] run over lists: the call returns or
    raises. *)
Lemma bellman_ford_no_hang gr s : (bellman_ford gr s).2 <> Hang.
Proof.
  rewrite bellman_ford_unfold.
  assert (Hp : (after_passes gr s).2 <> Hang).
  { rewrite after_passes_unfold. unfold relax_passes, bind, gets.
    apply for_each_no_hang. intros _ st'.
    unfold relax_pass, bind, gets.
    apply for_each_no_hang. intros e st2. apply relax_no_hang. }
  destruct (after_passes gr s) as [st [[]| |]]; simpl in *;
    [|discriminate|congruence].
  assert (Hc : (check_cycles st).2 <> Hang).
  { rewrite check_cycles_unfold.
    apply for_each_no_hang. intros e st'. apply check_no_hang. }
  destruct (check_cycles st) as [st' [[]| |]]; simpl in *;
    [discriminate|discriminate|congruence].
Qed.

(** With a cycle of negative weight that the start vertex reaches, the
    call does not return. *)
Lemma reachable_cycle_no_return gr s u w c d p :
  walk gr s u w -> walk gr u u c -> c < 0 ->
  (bellman_ford gr s).2 <> Return (d, p).
Proof.
  intros Hreach Hcycle Hneg Hret.
  destruct (bellman_ford_returns gr s d p Hret)
    as (st & Hst & _ & _ & Hk & Hno).
  pose proof (passes_source_at_most_0 gr s) as (x & Hx & _).
  rewrite Hst in Hx. simpl in Hx.
  destruct (settled_walk gr st s u w Hk Hno Hreach x Hx) as (du & Hu & _).
  destruct (settled_walk gr st u u c Hk Hno Hcycle du Hu)
    as (du' & Hu' & Hle).
  rewrite Hu in Hu'. injection Hu' as <-. lia.
Qed.

(** C5, as amended: with a cycle of negative weight that the start vertex
    reaches, [bellman_ford] returns no maps: it raises.  When the edges
    join declared vertices and the weights convert to float, the passes
    run to their end and the exception is [NegativeEdgeCycleError] with
    the two ends of an edge of the graph that still admits an improvement
    in the frame the passes left. *)
Theorem negative_cycle_raises gr s u w c :
  walk gr s u w -> walk gr u u c -> c < 0 ->
  (exists x, bellman_ford gr s = (gr, Raise x)) /\
  (wf_edges gr -> weights_fit gr ->
   exists e st,
     In e (edges gr) /\
     after_passes gr s = (st, Return tt) /\
     improvable st e = true /\
     bellman_ford gr s =
       (gr, Raise (NegativeEdgeCycleError (id (source e)) (id (dest e))))).
Proof.
  intros Hreach Hcycle Hneg. split.
  - pose proof (bellman_ford_graph gr s) as Hg.
    pose proof (bellman_ford_no_hang gr s) as Hh.
    destruct (bellman_ford gr s) as [gr' [[d p]|x|]] eqn:Hrun;
      simpl in *; subst gr'.
    + exfalso.
      apply (reachable_cycle_no_return gr s u w c d p Hreach Hcycle Hneg).
      now rewrite Hrun.
    + now exists x.
    + congruence.
  - intros Hwf Hfit.
    now apply (reachable_cycle_flagged gr s u w c).
Qed.

(** The scenario of the specification: vertices 0 and 1, edges 0 -> 1 and
    1 -> 0 of weight -1, start vertex 0. *)
Lemma negative_cycle_raises_witness :
  exists e st,
    In e (edges two_cycle) /\
    after_passes two_cycle 0 = (st, Return tt) /\
    improvable st e = true /\
    bellman_ford two_cycle 0 =
      (two_cycle,
       Raise (NegativeEdgeCycleError (id (source e)) (id (dest e)))).
Proof.
  apply (negative_cycle_raises two_cycle 0 0 0 (-1 + (-1 + 0)));
    [| |lia|exact two_cycle_wf|exact two_cycle_fits].
  - apply walk_stop.
  - apply (walk_edge two_cycle (E 0 1 (-1))); [simpl; auto|].
    apply (walk_edge two_cycle (E 1 0 (-1))); [simpl; auto|].
    apply walk_stop.
Defined.

(** C5, as stated, fails: in [dangling] the cycle 0 -> 1 -> 0 has weight
    -2 and is at the start vertex, and the call raises [KeyError] in the
    one pass there is, at the edge to the id 5, which is not declared. *)
Lemma negative_cycle_key_error :
  walk dangling 0 0 0 /\
  walk dangling 0 0 (-1 + (-1 + 0)) /\
  bellman_ford dangling 0 = (dangling, Raise (KeyError 5)).
Proof.
  split; [apply walk_stop|]. split; [|vm_compute; reflexivity].
  apply (walk_edge dangling (E 0 1 (-1))); [simpl; auto|].
  apply (walk_edge dangling (E 1 0 (-1))); [simpl; auto|].
  apply walk_stop.
Qed.

(** In [heavy] the same cycle is at the start vertex, and the call raises
    [OverflowError] in the first pass, at the edge from vertex 2, whose
    distance is [float('Infinity')] and whose weight is [10 ** 400]. *)
Lemma negative_cycle_overflow :
  walk heavy 0 0 (-1 + (-1 + 0)) /\
  wf_edges heavy /\
  bellman_ford heavy 0 = (heavy, Raise OverflowError).
Proof.
  split; [|split; [|vm_compute; reflexivity]].
  - apply (walk_edge heavy (E 0 1 (-1))); [simpl; auto|].
    apply (walk_edge heavy (E 1 0 (-1))); [simpl; auto|].
    apply walk_stop.
  - intros e He. simpl in He.
    repeat (destruct He as [<-|He]; [split; vm_compute; eauto|]).
    destruct He.
Qed.
End NegativeCycles.

(** * More on Dijkstra: what the search finds *)

Section DijkstraSearch.
Import Dijkstra.

(** The body of the edge loop leaves the frame as it was, or discovers the
    destination of the edge, which [prevs] mapped to [None]. *)
Lemma dj_relax_cases currentNode edge st :
  (relax currentNode edge st).1 = st \/
  exists d,
    prevs st !! dest edge = Some None /\
    dists st !! id currentNode = Some (Some d) /\
    relax currentNode edge st
      = (discovered currentNode edge d st, Return tt).
Proof.
  rewrite dj_relax_unfold.
  destruct (prevs st !! dest edge) as [[p|]|] eqn:Hp; try now left.
  destruct (dists st !! id currentNode) as [[d|]|] eqn:Hd; try now left.
  right. now exists d.
Qed.

(** When [relax] returns, the destination of the edge is known. *)
Lemma dj_relax_returns_known s currentNode edge st :
  (relax currentNode edge st).2 = Return tt ->
  known s (relax currentNode edge st).1 (dest edge).
Proof.
  rewrite dj_relax_unfold.
  destruct (prevs st !! dest edge) as [[p|]|] eqn:Hp; try discriminate.
  - intros _. right. now exists p.
  - destruct (dists st !! id currentNode) as [[d|]|]; try discriminate.
    intros _. right. exists (id currentNode). simpl.
    apply lookup_insert_eq.
Qed.

(** Generic: what the iterations of the main loop keep.  [I] holds between
    iterations, [Ic c] while the edges of node [c] are scanned. *)
Lemma process_keeps gr (I : frame -> Prop) (Ic : Z -> frame -> Prop)
    endID st :
  wf_ids gr ->
  (forall st x q, g st = gr -> I st -> nodePQ st = x :: q ->
     I (popped st q)) ->
  (forall st x q n, g st = gr -> I st -> nodePQ st = x :: q ->
     nodes gr !! x.2 = Some n -> Ic x.2 (popped st q)) ->
  (forall c n e st, nodes gr !! c = Some n -> In e (edges n) ->
     g st = gr -> Ic c st -> Ic c (relax n e st).1) ->
  (forall c st, Ic c st -> I st) ->
  g st = gr -> I st ->
  g (process endID st).1 = gr /\ I (process endID st).1.
Proof.
  intros Hwf Hpop Hcur Hstep Hexit Hg HI.
  split; [now rewrite process_graph|].
  unfold process, bind, get, getnode, getitem.
  destruct (nodePQ st) as [|x q] eqn:Hpq; [exact HI|].
  fold (popped st q).
  change (nodes (g (popped st q))) with (nodes (g st)). rewrite Hg.
  destruct (nodes gr !! x.2) as [n|] eqn:Hn; [|now apply (Hpop st x q)].
  destruct (bool_decide (x.2 = endID)); [now apply (Hpop st x q)|].
  pose proof (for_each_keeps (fun st' => g st' = gr /\ Ic x.2 st')
                (edges n) (relax n)) as Hloop.
  destruct (Hloop) with (st := popped st q) as [_ Hc].
  - intros e st' He [Hg' Hc']. split; [now rewrite dj_relax_graph|].
    now apply (Hstep x.2 n e).
  - split; [exact Hg|]. now apply (Hcur st x q n).
  - destruct (for_each (edges n) (relax n) (popped st q))
      as [st' [[]| |]]; simpl in *; now apply (Hexit x.2).
Qed.

(** The frame the main loop starts from, for a start id that is a key. *)
Lemma search_unfold fuel gr s t start :
  nodes gr !! s = Some start ->
  after_search fuel gr s t
    = while fuel not_empty (process t)
        {| g := gr;
           prevs := (fun _ => None) <$> nodes gr;
           dists := <[s := Some 0]> ((fun _ => None) <$> nodes gr);
           nodePQ := [(0, id start)] |}.
Proof.
  intros Hs. unfold after_search, search, bind, getnode, getitem.
  cbn -[while]. rewrite Hs. reflexivity.
Qed.

Lemma search_keeps gr (I : frame -> Prop) (Ic : Z -> frame -> Prop)
    fuel s t start :
  wf_ids gr ->
  nodes gr !! s = Some start ->
  (forall st x q, g st = gr -> I st -> nodePQ st = x :: q ->
     I (popped st q)) ->
  (forall st x q n, g st = gr -> I st -> nodePQ st = x :: q ->
     nodes gr !! x.2 = Some n -> Ic x.2 (popped st q)) ->
  (forall c n e st, nodes gr !! c = Some n -> In e (edges n) ->
     g st = gr -> Ic c st -> Ic c (relax n e st).1) ->
  (forall c st, Ic c st -> I st) ->
  I {| g := gr;
       prevs := (fun _ => None) <$> nodes gr;
       dists := <[s := Some 0]> ((fun _ => None) <$> nodes gr);
       nodePQ := [(0, s)] |} ->
  I (after_search fuel gr s t).1.
Proof.
  intros Hwf Hs Hpop Hcur Hstep Hexit H0.
  rewrite (search_unfold fuel gr s t start Hs), (Hwf _ _ Hs).
  apply (while_keeps (fun st => g st = gr /\ I st)).
  - intros st H. exact H.
  - intros st [Hg HI]. now apply (process_keeps gr I Ic).
  - now split.
Qed.

Lemma known_discovered s n e d st v :
  known s st v -> known s (discovered n e d st) v.
Proof.
  intros [->|[u Hu]]; [now left|]. right. simpl.
  rewrite lookup_insert. case_decide; eauto.
Qed.

Lemma trace_discovered (p : gmap Z (option Z)) s k c v l :
  p !! k = Some None -> traces_back p s v l ->
  traces_back (<[k := Some c]> p) s v l.
Proof.
  intros Hk Ht. induction Ht as [|v u l Hv Hp Ht IH]; [apply tb_here|].
  apply tb_step; [exact Hv| |exact IH].
  rewrite lookup_insert_ne; [exact Hp|]. intros ->. congruence.
Qed.

Lemma dom_insert_known {A} (m : gmap Z A) k v :
  is_Some (m !! k) -> dom (<[k := v]> m) = dom m.
Proof.
  intros Hk. rewrite dom_insert_L. apply elem_of_dom in Hk.
  apply set_eq. intros y. rewrite elem_of_union, elem_of_singleton.
  split; [intros [->|Hy]; assumption|auto].
Qed.

(** Discovering the destination of an edge of a known node keeps
    [tree_inv]. *)
Lemma tree_inv_discovered gr s c n e d st :
  nodes gr !! c = Some n -> id n = c -> In e (edges n) ->
  prevs st !! dest e = Some None ->
  dists st !! c = Some (Some d) ->
  tree_inv gr s st -> known s st c ->
  tree_inv gr s (discovered n e d st).
Proof.
  intros Hn Hid He Hp Hd (Hdp & Hdd & Hq & Hpre & Htr) Hc.
  assert (Hdest : is_Some (dists st !! dest e)).
  { apply elem_of_dom. rewrite Hdd, <- Hdp. apply elem_of_dom. eauto. }
  split; [|split; [|split; [|split]]]; simpl.
  - rewrite dom_insert_known; eauto.
  - rewrite dom_insert_known; eauto.
  - intros x Hx. apply In_insert_sorted in Hx as [->|Hx].
    + right. exists (id n). simpl. apply lookup_insert_eq.
    + apply known_discovered. now apply Hq.
  - intros v u. rewrite lookup_insert. case_decide as Hv.
    + intros [= <-]. subst v. rewrite Hid. split; [|split].
      * now apply known_discovered.
      * now exists n, e.
      * rewrite lookup_insert_eq. eauto.
    + intros Hvu. destruct (Hpre v u Hvu) as (Hu & Hedge & [dv Hdv]).
      split; [|split].
      * now apply known_discovered.
      * exact Hedge.
      * rewrite lookup_insert_ne by exact Hv. eauto.
  - intros v Hv.
    destruct (decide (v = s)) as [->|Hne]; [exists []; apply tb_here|].
    destruct (decide (dest e = v)) as [<-|Hv'].
    + destruct (Htr c Hc) as [l Hl]. exists (c :: l).
      apply tb_step; [exact Hne| |].
      * rewrite lookup_insert_eq, Hid. reflexivity.
      * now apply trace_discovered.
    + assert (Hk : known s st v).
      { destruct Hv as [->|[u Hu]]; [now left|]. right. exists u.
        simpl in Hu. now rewrite lookup_insert_ne in Hu. }
      destruct (Htr v Hk) as [l Hl]. exists l. now apply trace_discovered.
Qed.

(** The three steps of an iteration keep [core]. *)
Lemma core_pop gr s st x q :
  g st = gr -> core gr s st -> nodePQ st = x :: q ->
  core gr s (popped st q).
Proof.
  intros Hg [(_ & Hdom & Hq) (H1 & H2 & H3 & H4 & H5)] Hpq. split.
  - split; [exact Hg|]. split; [exact Hdom|].
    intros y Hy. apply Hq. rewrite Hpq. now right.
  - split; [exact H1|]. split; [exact H2|]. split; [|now split].
    intros y Hy. apply H3. rewrite Hpq. now right.
Qed.

Lemma core_current gr s st x q :
  g st = gr -> core gr s st -> nodePQ st = x :: q ->
  core_at gr s x.2 (popped st q).
Proof.
  intros Hg Hcore Hpq. split; [now apply (core_pop gr s st x q)|].
  destruct Hcore as [(_ & _ & Hq) (_ & _ & H3 & _)].
  assert (Hx : In x (nodePQ st)) by (rewrite Hpq; now left).
  split.
  - destruct (H3 x Hx) as [->|[u Hu]]; [now left|right; now exists u].
  - now destruct (Hq x Hx).
Qed.

Lemma core_relax gr s c n e st :
  wf_ids gr -> nodes gr !! c = Some n -> In e (edges n) ->
  core_at gr s c st -> core_at gr s c (relax n e st).1.
Proof.
  intros Hwf Hn He ([Hdj Htree] & Hc & [d Hd]).
  pose proof (Hwf _ _ Hn) as Hid.
  assert (Hd' : exists d, dists st !! id n = Some (Some d))
    by (rewrite Hid; eauto).
  destruct (dj_relax_step gr n e st Hdj Hd') as [(Hdj' & Hd'' & _) _].
  rewrite Hid in Hd''.
  destruct (dj_relax_cases n e st) as [Heq|(d' & Hp & Hdn & Heq)].
  - rewrite Heq. split; [now split|]. split; [exact Hc|now exists d].
  - rewrite Heq in *. simpl in *. rewrite Hid in Hdn.
    split; [split; [exact Hdj'|]|split; [|exact Hd'']].
    + now apply (tree_inv_discovered gr s c).
    + now apply known_discovered.
Qed.

Lemma core_start gr s start :
  nodes gr !! s = Some start ->
  core gr s {| g := gr;
               prevs := (fun _ => None) <$> nodes gr;
               dists := <[s := Some 0]> ((fun _ => None) <$> nodes gr);
               nodePQ := [(0, s)] |}.
Proof.
  intros Hs. split; [|split; [|split; [|split; [|split]]]]; simpl.
  - split; [reflexivity|]. split; [apply dom_fmap_L|].
    intros x [<-|[]]. simpl. split; [eauto|].
    rewrite lookup_insert_eq. eauto.
  - apply dom_fmap_L.
  - rewrite dom_insert_known; [apply dom_fmap_L|].
    rewrite lookup_fmap, Hs. simpl. eauto.
  - intros x [<-|[]]. now left.
  - intros v u. rewrite lookup_fmap.
    destruct (nodes gr !! v); discriminate.
  - intros v [->|[u Hu]]; [exists []; apply tb_here|].
    simpl in Hu. rewrite lookup_fmap in Hu.
    destruct (nodes gr !! v); discriminate.
Qed.

(** The main loop keeps [core]. *)
Lemma search_core gr fuel s t :
  wf_ids gr -> is_Some (nodes gr !! s) ->
  core gr s (after_search fuel gr s t).1.
Proof.
  intros Hwf [start Hs].
  apply (search_keeps gr (core gr s) (core_at gr s) fuel s t start Hwf Hs).
  - intros st x q Hg. now apply core_pop.
  - intros st x q n Hg Hc Hpq _. now apply core_current.
  - intros c n e st Hn He _. now apply core_relax.
  - intros c st [H _]. exact H.
  - now apply (core_start gr s start).
Qed.

(** *** The way back from a known id *)

Lemma trace_unique p s v l1 l2 :
  traces_back p s v l1 -> traces_back p s v l2 -> l1 = l2.
Proof.
  intros H1. revert l2.
  induction H1 as [|v u l Hv Hp H1 IH]; intros l2 H2.
  - inversion H2; [reflexivity|congruence].
  - inversion H2 as [|v' u' l' Hv' Hp' H2']; subst; [congruence|].
    rewrite Hp in Hp'. injection Hp' as <-. f_equal. now apply IH.
Qed.

(** Every id on the way back has its own way back, no longer. *)
Lemma trace_member p s v l :
  traces_back p s v l ->
  forall x, In x (v :: l) ->
    exists l2, traces_back p s x l2 /\ (length l2 <= length l)%nat.
Proof.
  induction 1 as [|v u l Hv Hp Ht IH]; intros x Hx.
  - destruct Hx as [<-|[]]. exists []. split; [apply tb_here|lia].
  - destruct Hx as [<-|Hx].
    + exists (u :: l). split; [now apply tb_step|lia].
    + destruct (IH x Hx) as (l2 & H2 & Hlen). exists l2.
      split; [exact H2|simpl; lia].
Qed.

Lemma trace_NoDup p s v l : traces_back p s v l -> NoDup (v :: l).
Proof.
  induction 1 as [|v u l Hv Hp Ht IH].
  - apply NoDup_cons. split; [apply not_elem_of_nil|apply NoDup_nil_2].
  - apply NoDup_cons. split; [|exact IH].
    rewrite list_elem_of_In. intros Hin.
    destruct (trace_member p s u l Ht v Hin) as (l2 & H2 & Hlen).
    pose proof (trace_unique p s v l2 (u :: l) H2 (tb_step p s v u l Hv Hp Ht))
      as ->. simpl in Hlen. lia.
Qed.

Lemma trace_in_dom (p : gmap Z (option Z)) s v l :
  traces_back p s v l -> s ∈ dom p ->
  forall x, In x (v :: l) -> x ∈ dom p.
Proof.
  intros Ht Hs. induction Ht as [|v u l Hv Hp Ht IH]; intros x Hx.
  - now destruct Hx as [<-|[]].
  - destruct Hx as [<-|Hx]; [apply elem_of_dom; eauto|now apply IH].
Qed.

(** The way back is shorter than the number of keys. *)
Lemma trace_length (p : gmap Z (option Z)) s v l :
  traces_back p s v l -> s ∈ dom p -> (length l < size p)%nat.
Proof.
  intros Ht Hs.
  assert (Hsub : v :: l ⊆+ elements (dom p)).
  { apply NoDup_submseteq; [now apply (trace_NoDup p s)|].
    intros x Hx. apply elem_of_elements.
    apply (trace_in_dom p s v l Ht Hs). now apply list_elem_of_In. }
  apply submseteq_length in Hsub.
  change (length (elements (dom p))) with (size (dom p)) in Hsub.
  rewrite size_dom in Hsub. simpl in Hsub. lia.
Qed.

(** The loop that walks back from the end node follows the way back. *)
Lemma walk_back_trace st s v l :
  traces_back (prevs st) s v l ->
  forall fuel path, (length l < fuel)%nat ->
    walk_back fuel s v path st = (st, Return (path ++ l)).
Proof.
  induction 1 as [|v u l Hv Hp Ht IH]; intros fuel path Hfuel;
    (destruct fuel as [|n]; [simpl in Hfuel; lia|]); simpl.
  - rewrite bool_decide_eq_false_2 by (intros H; now apply H).
    now rewrite app_nil_r.
  - rewrite bool_decide_eq_true_2 by exact Hv.
    unfold bind, getitem. rewrite Hp.
    rewrite (IH n (path ++ [u])) by (simpl in Hfuel; lia).
    now rewrite <- app_assoc.
Qed.

(** When that loop returns, what it has appended is the way back. *)
Lemma walk_back_returns st s fuel :
  forall v path path',
    (walk_back fuel s v path st).2 = Return path' ->
    exists l, traces_back (prevs st) s v l /\ path' = path ++ l.
Proof.
  induction fuel as [|n IH]; intros v path path'; simpl; [discriminate|].
  destruct (decide (v = s)) as [->|Hv].
  - rewrite bool_decide_eq_false_2 by (intros H; now apply H).
    intros [= <-]. exists []. split; [apply tb_here|now rewrite app_nil_r].
  - rewrite bool_decide_eq_true_2 by exact Hv.
    unfold bind, getitem.
    destruct (prevs st !! v) as [[u|]|] eqn:Hp; try discriminate.
    intros Hret. destruct (IH u (path ++ [u]) path') as (l & Hl & ->).
    + destruct (walk_back n s u (path ++ [u]) st) as [st' o]; exact Hret.
    + exists (u :: l). split; [now apply tb_step|now rewrite <- app_assoc].
Qed.

(** The way back, read from its far end, is a walk of the graph from the
    start node. *)
Lemma trace_walk gr s st v l :
  tree_inv gr s st -> traces_back (prevs st) s v l ->
  exists w, walk_to gr s v (rev (v :: l)) w.
Proof.
  intros (_ & _ & _ & Hpre & _). induction 1 as [|v u l Hv Hp Ht IH].
  - exists 0. apply walk_to_stop.
  - destruct IH as [w Hw].
    destruct (Hpre v u Hp) as (_ & (n & e & Hn & He & Hdst) & _).
    exists (w + weight e).
    change (rev (v :: u :: l)) with (rev (u :: l) ++ [v]).
    rewrite <- Hdst. now apply (walk_to_edge gr s u n e).
Qed.

(** A walk grown at its far end is a walk. *)
Lemma walk_snoc_edge gr u v path w n e :
  walk gr u v path w -> nodes gr !! v = Some n -> In e (edges n) ->
  walk gr u (dest e) (path ++ [dest e]) (w + weight e).
Proof.
  intros Hw Hn He. induction Hw as [u|u n' e' v path w Hn' He' Hw IH].
  - replace (0 + weight e) with (weight e + 0) by lia.
    apply (walk_edge gr u n e); [exact Hn|exact He|apply walk_stop].
  - replace (weight e' + w + weight e) with (weight e' + (w + weight e))
      by lia.
    apply (walk_edge gr u n' e'); [exact Hn'|exact He'|now apply IH].
Qed.

Lemma walk_to_walk gr u v path w :
  walk_to gr u v path w -> walk gr u v path w.
Proof.
  induction 1 as [|v n e path w Hw IH Hn He]; [apply walk_stop|].
  now apply (walk_snoc_edge gr u v path w n e).
Qed.

(** *** What [dijkstra] returns *)

(** A call that returns: the start id is a key, the main loop returned,
    and the statements after it returned the result. *)
Lemma dijkstra_returns fuel gr s t r :
  (dijkstra fuel gr s t).2 = Return r ->
  is_Some (nodes gr !! s) /\
  exists st,
    after_search fuel gr s t = (st, Return tt) /\
    (finish fuel s t st).2 = Return r.
Proof.
  rewrite dijkstra_unfold. intros Hret. split.
  - destruct (nodes gr !! s) eqn:Hs; [eauto|].
    rewrite search_unknown_source in Hret by exact Hs. discriminate.
  - destruct (after_search fuel gr s t) as [st [[]| |]]; try discriminate.
    exists st. split; [reflexivity|].
    destruct (finish fuel s t st) as [st' o]. exact Hret.
Qed.

(** What the statements after the main loop return. *)
Lemma finish_returns fuel s t st r :
  (finish fuel s t st).2 = Return r ->
  (prevs st !! t = Some None /\ r = (None, None)) \/
  exists u n l d,
    prevs st !! t = Some (Some u) /\
    nodes (g st) !! t = Some n /\
    traces_back (prevs st) s (id n) l /\
    dists st !! t = Some d /\
    r = (Some (rev (t :: l)), d).
Proof.
  unfold finish, bind, getnode, getitem.
  destruct (prevs st !! t) as [[u|]|] eqn:Hp; try discriminate.
  2:{ intros [= <-]. now left. }
  destruct (nodes (g st) !! t) as [n|] eqn:Hn; try discriminate.
  pose proof (walk_back_state fuel s (id n) [t] st) as Hst.
  pose proof (walk_back_returns st s fuel (id n) [t]) as Hwb.
  destruct (walk_back fuel s (id n) [t] st) as [st' [path| |]];
    try discriminate.
  simpl in Hst. subst st'.
  destruct (Hwb path eq_refl) as (l & Hl & ->).
  destruct (dists st !! t) as [d|] eqn:Hd; try discriminate.
  intros [= <-]. right. exists u, n, l, d. repeat split; auto.
Qed.

(** X9: on a graph that stores every node under its own id, a path that
    [dijkstra] returns is a walk of the graph from the start node to the
    end node (each id of the path holds an edge to the next), and it comes
    with a distance. *)
Theorem returned_path_is_walk fuel gr s t path od :
  wf_ids gr ->
  (dijkstra fuel gr s t).2 = Return (Some path, od) ->
  (exists w, walk gr s t path w) /\ exists d, od = Some d.
Proof.
  intros Hwf Hret.
  destruct (dijkstra_returns fuel gr s t _ Hret) as (Hs & st & Hst & Hfin).
  pose proof (search_core gr fuel s t Hwf Hs) as [(Hg & _) Htree].
  rewrite Hst in Hg, Htree. simpl in Hg, Htree.
  destruct (finish_returns fuel s t st _ Hfin)
    as [[_ [=]]|(u & n & l & d & Hp & Hn & Hl & Hd & [= -> ->])].
  rewrite Hg in Hn. rewrite (Hwf _ _ Hn) in Hl.
  destruct (trace_walk gr s st t l Htree Hl) as [w Hw].
  split; [exists w; now apply walk_to_walk|].
  destruct Htree as (_ & _ & _ & Hpre & _).
  destruct (Hpre t u Hp) as (_ & _ & [d' Hd']).
  rewrite Hd in Hd'. injection Hd' as ->. eauto.
Qed.

Lemma returned_path_is_walk_witness :
  (exists w, walk scenario 0 3 [0; 2; 3] w) /\ exists d, Some 6 = Some d.
Proof.
  apply (returned_path_is_walk 6 scenario 0 3 [0; 2; 3] (Some 6)).
  - exact scenario_wf_ids.
  - vm_compute. reflexivity.
Defined.

(** *** The distance, when no edge leads to the start node *)

(** A key that [prevs] maps to [None] is the start id if it is known. *)
Lemma known_None s st v :
  known s st v -> prevs st !! v = Some None -> v = s.
Proof. intros [->|[u Hu]] Hv; [reflexivity|congruence]. Qed.

Lemma dist_inv_discovered gr s c n e d st :
  nodes gr !! c = Some n -> id n = c -> In e (edges n) ->
  dest e <> s ->
  prevs st !! dest e = Some None ->
  dists st !! c = Some (Some d) ->
  tree_inv gr s st -> known s st c -> dist_inv gr s st ->
  dist_inv gr s (discovered n e d st).
Proof.
  intros Hn Hid He Hne Hp Hd (_ & _ & _ & Hpre & _) Hc (H0 & Hs & Hall).
  assert (Hfresh : forall u, known s st u -> dest e <> u).
  { intros u Hu Heq. apply Hne. rewrite Heq.
    apply (known_None s st u Hu). now rewrite <- Heq. }
  split; [|split]; simpl.
  - now rewrite lookup_insert_ne.
  - now rewrite lookup_insert_ne.
  - intros v u. rewrite lookup_insert. case_decide as Hv.
    + intros [= <-]. subst v. rewrite Hid. exists n, e, d.
      rewrite lookup_insert_eq.
      rewrite lookup_insert_ne by now apply Hfresh.
      repeat split; auto.
    + intros Hvu.
      destruct (Hall v u Hvu) as (n' & e' & du & Hn' & He' & Hd' & Hu & Hdv).
      destruct (Hpre v u Hvu) as (Hku & _).
      exists n', e', du.
      rewrite lookup_insert_ne by now apply Hfresh.
      rewrite lookup_insert_ne by exact Hv.
      repeat split; auto.
Qed.

(** The main loop keeps [dist_inv] when no edge leads to the start
    node. *)
Lemma search_dist_inv gr fuel s t :
  wf_ids gr -> is_Some (nodes gr !! s) -> no_edge_into gr s ->
  dist_inv gr s (after_search fuel gr s t).1.
Proof.
  intros Hwf [start Hs] Hno.
  apply (search_keeps gr
           (fun st => core gr s st /\ dist_inv gr s st)
           (fun c st => core_at gr s c st /\ dist_inv gr s st)
           fuel s t start Hwf Hs).
  - intros st x q Hg [Hc Hd] Hpq.
    split; [now apply (core_pop gr s st x q)|exact Hd].
  - intros st x q n Hg [Hc Hd] Hpq _.
    split; [now apply (core_current gr s st x q)|exact Hd].
  - intros c n e st Hn He _ [Hc Hd].
    split; [now apply core_relax|].
    destruct Hc as ([_ Htree] & Hk & _).
    destruct (dj_relax_cases n e st) as [->|(d & Hp & Hdn & ->)];
      [exact Hd|].
    pose proof (Hwf _ _ Hn) as Hid. rewrite Hid in Hdn. simpl.
    apply (dist_inv_discovered gr s c); auto.
    now apply (Hno c n e).
  - intros c st [[H _] Hd]. now split.
  - split; [now apply (core_start gr s start)|].
    split; [|split]; simpl.
    + apply lookup_insert_eq.
    + now rewrite lookup_fmap, Hs.
    + intros v u. rewrite lookup_fmap.
      destruct (nodes gr !! v); discriminate.
Qed.

(** The way back, read from its far end, is a walk whose weight is the
    distance recorded for the id it started from. *)
Lemma trace_walk_weight gr s st v l :
  dist_inv gr s st -> traces_back (prevs st) s v l ->
  forall d, dists st !! v = Some (Some d) ->
    walk_to gr s v (rev (v :: l)) d.
Proof.
  intros (H0 & _ & Hall). induction 1 as [|v u l Hv Hp Ht IH]; intros d Hd.
  - rewrite H0 in Hd. injection Hd as <-. apply walk_to_stop.
  - destruct (Hall v u Hp) as (n & e & du & Hn & He & Hdst & Hu & Hdv).
    rewrite Hdv in Hd. injection Hd as <-.
    change (rev (v :: u :: l)) with (rev (u :: l) ++ [v]).
    rewrite <- Hdst. apply (walk_to_edge gr s u n e); auto.
Qed.

(** X10: on a graph that stores every node under its own id and has no
    edge leading to the start node, the distance that [dijkstra] returns
    is the sum of the weights of the edges along the path it returns. *)
Theorem returned_distance_is_path_weight fuel gr s t path d :
  wf_ids gr -> no_edge_into gr s ->
  (dijkstra fuel gr s t).2 = Return (Some path, Some d) ->
  walk gr s t path d.
Proof.
  intros Hwf Hno Hret.
  destruct (dijkstra_returns fuel gr s t _ Hret) as (Hs & st & Hst & Hfin).
  pose proof (search_core gr fuel s t Hwf Hs) as [(Hg & _) _].
  pose proof (search_dist_inv gr fuel s t Hwf Hs Hno) as Hdist.
  rewrite Hst in Hg, Hdist. simpl in Hg, Hdist.
  destruct (finish_returns fuel s t st _ Hfin)
    as [[_ [=]]|(u & n & l & d' & Hp & Hn & Hl & Hd & [= -> <-])].
  rewrite Hg in Hn. rewrite (Hwf _ _ Hn) in Hl.
  apply walk_to_walk. now apply (trace_walk_weight gr s st).
Qed.

Lemma scenario_no_edge_into : no_edge_into scenario 0.
Proof.
  intros k n e. unfold scenario, graph_of. simpl.
  rewrite !lookup_insert_Some, lookup_empty.
  intros H He.
  repeat (destruct H as [[_ <-]|[_ H]];
          [simpl in He;
           repeat (destruct He as [<-|He]; [discriminate|]); destruct He|]).
  discriminate.
Qed.

Lemma returned_distance_is_path_weight_witness :
  walk scenario 0 3 [0; 2; 3] 6.
Proof.
  apply (returned_distance_is_path_weight 6 scenario 0 3 [0; 2; 3] 6).
  - exact scenario_wf_ids.
  - exact scenario_no_edge_into.
  - vm_compute. reflexivity.
Defined.
End DijkstraSearch.

(** * Loops that establish a property *)

Section MonadPosts.
Context {St : Type}.

(** What each run of the body establishes for its element, and later runs
    keep, holds for every element once the loop has returned. *)
Lemma for_each_post {A} (Q : A -> St -> Prop) (l : list A)
    (body : A -> M St unit) :
  (forall x st, In x l -> (body x st).2 = Return tt -> Q x (body x st).1) ->
  (forall x y st, In y l -> Q x st -> Q x (body y st).1) ->
  forall st, (for_each l body st).2 = Return tt ->
    forall x, In x l -> Q x (for_each l body st).1.
Proof.
  induction l as [|y l IH]; intros Hest Hkeep st Hret x Hx; [destruct Hx|].
  simpl in *. unfold bind in *.
  pose proof (Hest y st (or_introl eq_refl)) as Hy.
  destruct (body y st) as [st1 [[]| |]] eqn:Hb; try discriminate.
  simpl in Hy. destruct Hx as [<-|Hx].
  - apply (for_each_keeps (Q y)); [|now apply Hy].
    intros z st' Hz. apply Hkeep. now right.
  - apply IH; [| |exact Hret|exact Hx].
    + intros z st' Hz. apply Hest. now right.
    + intros z z' st' Hz. apply Hkeep. now right.
Qed.

(** A loop that has returned ended on its condition, its invariant true,
    or on a [break], with what the iteration that broke established. *)
Lemma while_post (I Q : St -> Prop) (cond : St -> bool) (body : M St ctl) :
  (forall st, I st -> cond st = true ->
     match body st with
     | (st', Return Next) => I st'
     | (st', Return Break) => Q st'
     | _ => True
     end) ->
  forall fuel st st', I st ->
    while fuel (gets cond) body st = (st', Return tt) ->
    (I st' /\ cond st' = false) \/ Q st'.
Proof.
  intros Hbody. induction fuel as [|n IH]; intros st st' HI; simpl;
    [discriminate|].
  unfold bind, gets.
  destruct (cond st) eqn:Hc; [|intros [= <-]; now left].
  pose proof (Hbody st HI Hc) as Hb.
  destruct (body st) as [st1 [[]| |]]; try discriminate.
  - now apply IH.
  - intros [= <-]. now right.
Qed.
End MonadPosts.

(** * More on Dijkstra: what the search reaches *)

Section DijkstraReach.
Import Dijkstra.

Lemma known_relax s n e st v :
  known s st v -> known s (relax n e st).1 v.
Proof.
  intros Hv. destruct (dj_relax_cases n e st) as [->|(d & _ & _ & ->)];
    [exact Hv|now apply known_discovered].
Qed.

Lemma done_relax gr s n e st v :
  done gr s st v -> done gr s (relax n e st).1 v.
Proof.
  intros Hd n' e' Hn' He'. apply known_relax. exact (Hd n' e' Hn' He').
Qed.

Lemma queued_relax n e st v : queued st v -> queued (relax n e st).1 v.
Proof.
  intros [d Hd]. destruct (dj_relax_cases n e st) as [->|(d' & _ & _ & ->)];
    [now exists d|].
  exists d. simpl. apply In_insert_sorted. now right.
Qed.

(** Scanning an edge of the current node keeps [closure_inv]. *)
Lemma closure_relax gr s c n e st :
  closure_inv gr s (Some c) st ->
  closure_inv gr s (Some c) (relax n e st).1.
Proof.
  intros Hcl v Hv.
  destruct (dj_relax_cases n e st) as [Heq|(d & Hp & Hd & Heq)].
  - rewrite Heq in *. now apply Hcl.
  - destruct (decide (v = dest e)) as [->|Hne].
    + left. rewrite Heq. exists (d + weight e). simpl.
      apply In_insert_sorted. now left.
    + assert (Hk : known s st v).
      { rewrite Heq in Hv. destruct Hv as [->|[u Hu]]; [now left|].
        right. exists u. simpl in Hu.
        now rewrite lookup_insert_ne in Hu by congruence. }
      destruct (Hcl v Hk) as [Hq|[Hdn|Hc]].
      * left. now apply queued_relax.
      * right. left. now apply done_relax.
      * now right; right.
Qed.

(** Taking the head of the queue makes its id the current node. *)
Lemma closure_pop gr s st x q :
  nodePQ st = x :: q ->
  closure_inv gr s None st ->
  closure_inv gr s (Some x.2) (popped st q).
Proof.
  intros Hpq Hcl v Hv. destruct (Hcl v Hv) as [[d Hd]|[Hdn|[=]]].
  - rewrite Hpq in Hd. destruct Hd as [->|Hd]; [now right; right|].
    left. now exists d.
  - right. left. exact Hdn.
Qed.

(** One iteration of the main loop: when it goes on, [core] and
    [closure_inv] hold again; when it breaks, the end id is known. *)
Lemma process_closure gr s t st :
  wf_ids gr ->
  g st = gr /\ core gr s st /\ closure_inv gr s None st ->
  match process t st with
  | (st', Return Next) =>
      g st' = gr /\ core gr s st' /\ closure_inv gr s None st'
  | (st', Return Break) => known s st' t
  | _ => True
  end.
Proof.
  intros Hwf (Hg & Hcore & Hcl).
  unfold process, bind, get, getnode, getitem.
  destruct (nodePQ st) as [|x q] eqn:Hpq; [exact I|].
  fold (popped st q).
  change (nodes (g (popped st q))) with (nodes (g st)). rewrite Hg.
  destruct (nodes gr !! x.2) as [n|] eqn:Hn; [|exact I].
  pose proof (core_current gr s st x q Hg Hcore Hpq) as Hat.
  destruct (bool_decide (x.2 = t)) eqn:Ht.
  { apply bool_decide_eq_true_1 in Ht. rewrite <- Ht. now destruct Hat. }
  pose proof (for_each_keeps
    (fun st' => g st' = gr /\ core_at gr s x.2 st' /\
                closure_inv gr s (Some x.2) st')
    (edges n) (relax n)) as Hloop.
  destruct Hloop with (st := popped st q) as (Hg' & Hat' & Hcl').
  { intros e st' He (H1 & H2 & H3). split; [now rewrite dj_relax_graph|].
    split; [now apply core_relax|now apply closure_relax]. }
  { split; [exact Hg|]. split; [exact Hat|now apply closure_pop]. }
  pose proof (for_each_post (fun e st' => known s st' (dest e))
                (edges n) (relax n)) as Hpost.
  specialize (Hpost (fun e st' _ H => dj_relax_returns_known s n e st' H)
                    (fun e e' st' _ H => known_relax s n e' st' (dest e) H)
                    (popped st q)).
  destruct (for_each (edges n) (relax n) (popped st q))
    as [st' [[]| |]]; try exact I.
  simpl in *. split; [exact Hg'|]. split; [now destruct Hat'|].
  intros v Hv. destruct (Hcl' v Hv) as [Hq|[Hdn|[= <-]]]; auto.
  right. left. intros n' e Hn' He. rewrite Hn in Hn'. injection Hn' as <-.
  now apply Hpost.
Qed.

(** When the main loop has returned, every id that a walk from the start
    node leads to is known, or the end id is. *)
Lemma search_reaches gr fuel s t st :
  wf_ids gr ->
  after_search fuel gr s t = (st, Return tt) ->
  forall path w, walk gr s t path w -> known s st t.
Proof.
  intros Hwf Hrun path w Hwalk.
  destruct (nodes gr !! s) as [start|] eqn:Hs.
  2:{ rewrite search_unknown_source in Hrun by exact Hs. discriminate. }
  rewrite (search_unfold fuel gr s t start Hs), (Hwf _ _ Hs) in Hrun.
  pose proof (while_post
    (fun st => g st = gr /\ core gr s st /\ closure_inv gr s None st)
    (fun st => known s st t)
    (fun st => match nodePQ st with [] => false | _ => true end)
    (process t)) as Hpost.
  apply (Hpost (fun st' H _ => process_closure gr s t st' Hwf H)) in Hrun
    as [[(_ & _ & Hcl) Hempty]|Hk]; [|exact Hk|].
  2:{ split; [reflexivity|]. split; [now apply (core_start gr s start)|].
      intros v [->|[u Hu]].
      + left. exists 0. now left.
      + simpl in Hu. rewrite lookup_fmap in Hu.
        destruct (nodes gr !! v); discriminate. }
  - assert (Hq : forall v, ~ queued st v).
    { intros v [d Hd]. destruct (nodePQ st); [destruct Hd|discriminate]. }
    assert (Hstep : forall u v p w', walk gr u v p w' ->
                      known s st u -> known s st v).
    { intros u v p w' H. induction H as [u|u n e v p w' Hn He _ IH];
        [auto|].
      intros Hu. apply IH.
      destruct (Hcl u Hu) as [Hqu|[Hdn|[=]]]; [now destruct (Hq u)|].
      now apply (Hdn n e). }
    apply (Hstep s t path w Hwalk). now left.
Qed.

(** X11: on a graph that stores every node under its own id, when a walk
    of the graph leads from the start node to a different end node and
    [dijkstra] returns, it returns a path and a distance, not
    [(None, None)]. *)
Theorem reachable_is_found fuel gr s t path w r :
  wf_ids gr -> t <> s ->
  walk gr s t path w ->
  (dijkstra fuel gr s t).2 = Return r ->
  exists path' d, r = (Some path', Some d).
Proof.
  intros Hwf Hne Hwalk Hret.
  destruct (dijkstra_returns fuel gr s t _ Hret) as (Hs & st & Hst & Hfin).
  pose proof (search_core gr fuel s t Hwf Hs) as [_ Htree].
  rewrite Hst in Htree. simpl in Htree.
  destruct (search_reaches gr fuel s t st Hwf Hst path w Hwalk)
    as [Heq|[u Hu]]; [contradiction|].
  destruct (finish_returns fuel s t st _ Hfin)
    as [[Hp _]|(u' & n & l & d & Hp & Hn & Hl & Hd & ->)]; [congruence|].
  destruct Htree as (_ & _ & _ & Hpre & _).
  destruct (Hpre t u Hu) as (_ & _ & [d' Hd']).
  rewrite Hd in Hd'. injection Hd' as ->. eauto.
Qed.

Lemma reachable_is_found_witness :
  exists path' d,
    (Some [0; 2; 3], Some 6) = (Some path', Some d).
Proof.
  apply (reachable_is_found 6 scenario 0 3 [0; 1; 2; 3] (1 + (2 + (1 + 0)))).
  - exact scenario_wf_ids.
  - discriminate.
  - apply (walk_edge scenario 0 (N 0 [E 0 1 1; E 0 2 5]) (E 0 1 1));
      [reflexivity|simpl; auto|].
    apply (walk_edge scenario 1 (N 1 [E 1 2 2]) (E 1 2 2));
      [reflexivity|simpl; auto|].
    apply (walk_edge scenario 2 (N 2 [E 2 3 1]) (E 2 3 1));
      [reflexivity|simpl; auto|].
    apply walk_stop.
  - vm_compute. reflexivity.
Defined.
End DijkstraReach.

(** * More on Dijkstra: how a call ends *)

Section DijkstraOutcome.
Import Dijkstra.

(** Scanning an edge of the current node raises nothing but a [KeyError]
    for the destination of the edge, when it is not a key. *)
Lemma relax_raises_unknown gr s t c n e st :
  wf_ids gr -> nodes gr !! c = Some n -> In e (edges n) ->
  core_at gr s c st ->
  only_raises (unknown_id gr s t) (relax n e st).2.
Proof.
  intros Hwf Hn He ([(_ & Hdom & _) _] & _ & [d Hd]).
  rewrite dj_relax_unfold, (Hwf _ _ Hn), Hd.
  destruct (prevs st !! dest e) as [[p|]|] eqn:Hp; simpl; try exact I.
  exists (dest e). split; [reflexivity|]. split.
  - apply not_elem_of_dom. rewrite <- Hdom. now apply not_elem_of_dom.
  - right. right. now exists c, n, e.
Qed.

(** One iteration of the main loop, with the exceptions it can raise. *)
Lemma process_outcome gr s t st :
  wf_ids gr ->
  g st = gr /\ core gr s st ->
  match nodePQ st with [] => false | _ => true end = true ->
  (g (process t st).1 = gr /\ core gr s (process t st).1) /\
  only_raises (unknown_id gr s t) (process t st).2 /\
  (measure (process t st).1 < measure st)%nat.
Proof.
  intros Hwf [Hg Hcore] Hne.
  destruct (process_step gr t st Hwf (proj1 Hcore) Hne) as (_ & _ & Hmu).
  split; [|split; [|exact Hmu]].
  - apply (process_keeps gr (core gr s) (core_at gr s)); auto.
    + intros st' x q Hg'. now apply core_pop.
    + intros st' x q n Hg' Hc Hpq _. now apply core_current.
    + intros c n e st' Hn He _. now apply core_relax.
    + intros c st' [H _]. exact H.
  - unfold process, bind, get, getnode, getitem.
    destruct (nodePQ st) as [|x q] eqn:Hpq; [discriminate|].
    fold (popped st q).
    change (nodes (g (popped st q))) with (nodes (g st)). rewrite Hg.
    pose proof (core_current gr s st x q Hg Hcore Hpq) as Hat.
    assert (Hx : In x (nodePQ st)) by (rewrite Hpq; now left).
    destruct Hcore as [(_ & _ & Hq) _].
    destruct (Hq x Hx) as [[n Hn] _]. rewrite Hn.
    destruct (bool_decide (x.2 = t)); [exact I|].
    pose proof (for_each_ends (core_at gr s x.2) (unknown_id gr s t)
                  (edges n) (relax n)) as Hloop.
    destruct Hloop with (st := popped st q) as [_ Hends]; [|exact Hat|].
    + intros e st' He Hat'. split; [now apply core_relax|].
      now apply (relax_raises_unknown gr s t x.2).
    + destruct (for_each (edges n) (relax n) (popped st q))
        as [st' [[]| |]]; simpl in *; auto.
Qed.

(** The main loop, with the exceptions it can raise. *)
Lemma search_outcome gr fuel s t :
  wf_ids gr -> is_Some (nodes gr !! s) ->
  (size (nodes gr) + 2 <= fuel)%nat ->
  only_raises (unknown_id gr s t) (after_search fuel gr s t).2.
Proof.
  intros Hwf [start Hs] Hfuel.
  rewrite (search_unfold fuel gr s t start Hs), (Hwf _ _ Hs).
  apply (while_ends (fun st => g st = gr /\ core gr s st)
           (unknown_id gr s t) measure).
  - intros st HI Hc. now apply process_outcome.
  - split; [reflexivity|now apply (core_start gr s start)].
  - unfold measure. simpl. rewrite undiscovered_all_None. lia.
Qed.

(** The statements after the main loop, with the exceptions they can
    raise. *)
Lemma finish_outcome gr fuel s t st :
  wf_ids gr -> is_Some (nodes gr !! s) ->
  (size (nodes gr) + 2 <= fuel)%nat ->
  core gr s st ->
  only_raises (unknown_id gr s t) (finish fuel s t st).2.
Proof.
  intros Hwf Hs Hfuel [(Hg & Hdom & _) (_ & Hdd & _ & Hpre & Htr)].
  unfold finish, bind, getnode, getitem.
  destruct (prevs st !! t) as [[u|]|] eqn:Hp; simpl; try exact I.
  2:{ exists t. split; [reflexivity|]. split; [|now right; left].
      apply not_elem_of_dom. rewrite <- Hdom. now apply not_elem_of_dom. }
  assert (Ht : t ∈ dom (nodes gr))
    by (rewrite <- Hdom; apply elem_of_dom; eauto).
  rewrite Hg. pose proof Ht as Ht'.
  apply elem_of_dom in Ht' as [n Hn]. rewrite Hn.
  destruct (Htr t) as [l Hl]; [right; eauto|].
  assert (Hlen : (length l < size (prevs st))%nat).
  { apply (trace_length _ s t l Hl). rewrite Hdom. now apply elem_of_dom. }
  rewrite <- size_dom, Hdom, size_dom in Hlen.
  rewrite (Hwf _ _ Hn), (walk_back_trace st s t l Hl) by lia.
  rewrite <- Hdd in Ht. apply elem_of_dom in Ht as [d Hd].
  rewrite Hd. exact I.
Qed.

(** X7: on a graph that stores every node under its own id, a call of
    [dijkstra] ends: it returns, or it raises [KeyError] for an id that is
    not a key of the graph, which is the start id, the end id or the
    destination of an edge.  The main loop tests its condition at most
    [len(g.nodes) + 2] times. *)
Theorem dijkstra_outcome fuel gr s t :
  wf_ids gr ->
  (size (nodes gr) + 2 <= fuel)%nat ->
  only_raises (unknown_id gr s t) (dijkstra fuel gr s t).2.
Proof.
  intros Hwf Hfuel.
  destruct (nodes gr !! s) as [start|] eqn:Hs.
  2:{ rewrite dijkstra_unknown_source by exact Hs. simpl.
      exists s. split; [reflexivity|]. split; [exact Hs|now left]. }
  assert (Hs' : is_Some (nodes gr !! s)) by eauto.
  pose proof (search_outcome gr fuel s t Hwf Hs' Hfuel) as Hsearch.
  pose proof (search_core gr fuel s t Hwf Hs') as Hcore.
  rewrite dijkstra_unfold.
  destruct (after_search fuel gr s t) as [st [[]| |]]; simpl in *;
    try assumption.
  pose proof (finish_outcome gr fuel s t st Hwf Hs' Hfuel Hcore) as Hfin.
  destruct (finish fuel s t st) as [st' o]. exact Hfin.
Qed.

Lemma dijkstra_outcome_witness :
  only_raises (unknown_id scenario 0 3) (dijkstra 6 scenario 0 3).2.
Proof.
  apply (dijkstra_outcome 6 scenario 0 3).
  - exact scenario_wf_ids.
  - vm_compute. lia.
Defined.

(** X8: on a graph that stores every node under its own id and whose
    edges all lead to keys of the graph, a call of [dijkstra] with a start
    id and an end id that are keys returns: it raises nothing and its
    loops end. *)
Theorem dijkstra_returns_on_closed fuel gr s t :
  wf_ids gr -> closed gr ->
  is_Some (nodes gr !! s) -> is_Some (nodes gr !! t) ->
  (size (nodes gr) + 2 <= fuel)%nat ->
  exists r, (dijkstra fuel gr s t).2 = Return r.
Proof.
  intros Hwf Hcl [ns Hs] [nt Ht] Hfuel.
  pose proof (dijkstra_outcome fuel gr s t Hwf Hfuel) as Hout.
  destruct ((dijkstra fuel gr s t).2) as [r|e|]; [eauto| |destruct Hout].
  destruct Hout as (k & _ & Hk & [->|[->|(u & n & e' & Hn & He' & <-)]]);
    try congruence.
  destruct (Hcl u n e' Hn He') as [x Hx]. congruence.
Qed.

Lemma scenario_closed : closed scenario.
Proof.
  intros k n e. unfold scenario, graph_of. simpl.
  rewrite !lookup_insert_Some, lookup_empty.
  intros H He.
  repeat (destruct H as [[_ <-]|[_ H]];
          [simpl in He;
           repeat (destruct He as [<-|He]; [vm_compute; eauto|]);
           destruct He|]).
  discriminate.
Qed.

Lemma dijkstra_returns_on_closed_witness :
  exists r, (dijkstra 6 scenario 0 3).2 = Return r.
Proof.
  apply (dijkstra_returns_on_closed 6 scenario 0 3).
  - exact scenario_wf_ids.
  - exact scenario_closed.
  - vm_compute. eauto.
  - vm_compute. eauto.
  - vm_compute. lia.
Defined.

Lemma dijkstra_same_endpoints_witness :
  dijkstra 1 scenario 2 2 = (scenario, Return (None, None)).
Proof.
  apply (dijkstra_same_endpoints 0 scenario 2).
  - exact scenario_wf_ids.
  - vm_compute. eauto.
Defined.
End DijkstraOutcome.

(** * More on Bellman-Ford: graphs without negative cycles *)

Section BellmanFordConverges.
Import BellmanFord.

Lemma total_app es1 es2 : total (es1 ++ es2) = total es1 + total es2.
Proof.
  induction es1 as [|e es1 IH]; simpl; [lia|]. unfold total in *. simpl.
  rewrite IH. lia.
Qed.

Lemma chain_app gr u es1 v es2 z :
  chain gr u es1 v -> chain gr v es2 z -> chain gr u (es1 ++ es2) z.
Proof.
  revert u. induction es1 as [|e es1 IH]; intros u; simpl.
  - now intros ->.
  - intros (He & Hsrc & Hrest) H2. repeat split; auto.
Qed.

Lemma chain_snoc_inv gr u es e v :
  chain gr u (es ++ [e]) v ->
  chain gr u es (id (source e)) /\ In e (edges gr) /\ id (dest e) = v.
Proof.
  revert u. induction es as [|e0 es IH]; intros u; simpl.
  - intros (He & Hsrc & Hv). now repeat split.
  - intros (He0 & Hsrc & Hrest). destruct (IH _ Hrest) as (H1 & H2 & H3).
    now repeat split.
Qed.

Lemma chain_walk gr u es v : chain gr u es v -> walk gr u v (total es).
Proof.
  revert u. induction es as [|e es IH]; intros u; simpl.
  - intros ->. apply walk_stop.
  - intros (He & <- & Hrest). apply walk_edge; [exact He|now apply IH].
Qed.

Lemma walk_chain gr u v w :
  walk gr u v w -> exists es, chain gr u es v /\ total es = w.
Proof.
  induction 1 as [u|e v w He Hw (es & Hes & Htot)].
  - now exists [].
  - exists (e :: es). simpl. repeat split; auto.
    unfold total in *. simpl. now rewrite Htot.
Qed.

Lemma chain_dests_declared gr u es v :
  wf_edges gr -> chain gr u es v ->
  forall x, In x (dests es) -> x ∈ dom (vertices gr).
Proof.
  intros Hwf. revert u. induction es as [|e es IH]; intros u; simpl;
    [intros _ x []|].
  intros (He & _ & Hrest) x [<-|Hx].
  - apply elem_of_dom. now destruct (Hwf e He).
  - now apply (IH _ Hrest).
Qed.

(** A chain that leads through [u] splits there. *)
Lemma chain_cut gr a es b u :
  chain gr a es b -> In u (dests es) ->
  exists es1 es2,
    es = es1 ++ es2 /\ chain gr a es1 u /\ chain gr u es2 b /\
    In u (dests es1).
Proof.
  revert a. induction es as [|e es IH]; intros a; simpl; [intros _ []|].
  intros (He & Hsrc & Hrest) [Hu|Hu].
  - exists [e], es. simpl. repeat split; auto. now rewrite <- Hu.
  - destruct (IH _ Hrest Hu) as (es1 & es2 & -> & H1 & H2 & H3).
    exists (e :: es1), es2. simpl. repeat split; auto.
Qed.

(** Without negative cycles, a chain from a vertex that the start vertex
    reaches can be replaced by one that weighs no more and passes no
    vertex twice. *)
Lemma chain_simple gr s :
  no_negative_cycle gr s ->
  forall es u v w0,
    walk gr s u w0 -> chain gr u es v ->
    exists es',
      chain gr u es' v /\ total es' <= total es /\ NoDup (u :: dests es').
Proof.
  intros Hnn. induction es as [|e es IH]; intros u v w0 Hreach Hch.
  - exists []. simpl in *. repeat split; [exact Hch|lia|].
    apply NoDup_cons. split; [apply not_elem_of_nil|apply NoDup_nil_2].
  - simpl in Hch. destruct Hch as (He & Hsrc & Hrest).
    assert (Hreach' : walk gr s (id (dest e)) (w0 + weight e))
      by now apply (walk_snoc gr s u).
    destruct (IH _ v _ Hreach' Hrest) as (es1 & Hch1 & Htot1 & Hnd1).
    assert (Hch' : chain gr u (e :: es1) v) by (simpl; auto).
    assert (Htot' : total (e :: es1) <= total (e :: es))
      by (unfold total in *; simpl; lia).
    destruct (decide (u ∈ dests (e :: es1))) as [Hin|Hnin].
    + apply list_elem_of_In in Hin.
      destruct (chain_cut gr u (e :: es1) v u Hch' Hin)
        as (ca & cb & Heq & Hca & Hcb & Hua).
      exists cb. split; [exact Hcb|]. split.
      * pose proof (Hnn u w0 (total ca) Hreach (chain_walk _ _ _ _ Hca)).
        rewrite Heq, total_app in Htot'. lia.
      * change (dests (e :: es1)) with (id (dest e) :: dests es1) in *.
        assert (Hd : id (dest e) :: dests es1 = dests ca ++ dests cb).
        { change (id (dest e) :: dests es1) with (dests (e :: es1)).
          rewrite Heq. unfold dests. apply map_app. }
        rewrite Hd in Hnd1. apply NoDup_app in Hnd1 as (_ & Hdisj & Hndb).
        apply NoDup_cons. split; [|exact Hndb].
        apply Hdisj. now apply list_elem_of_In.
    + exists (e :: es1). split; [exact Hch'|]. split; [exact Htot'|].
      apply NoDup_cons. split; [exact Hnin|exact Hnd1].
Qed.

(** Without negative cycles, what edges lead to from the start vertex,
    fewer edges than there are vertices lead to, weighing no more. *)
Lemma chain_short gr s es v :
  wf_edges gr -> is_Some (vertices gr !! s) -> no_negative_cycle gr s ->
  chain gr s es v ->
  exists es',
    chain gr s es' v /\ total es' <= total es /\
    (length es' < size (vertices gr))%nat.
Proof.
  intros Hwf Hs Hnn Hch.
  destruct (chain_simple gr s Hnn es s v 0 (walk_stop gr s) Hch)
    as (es' & Hch' & Htot & Hnd).
  exists es'. split; [exact Hch'|]. split; [exact Htot|].
  assert (Hsub : s :: dests es' ⊆+ elements (dom (vertices gr))).
  { apply NoDup_submseteq; [exact Hnd|].
    intros x Hx. apply elem_of_elements.
    apply list_elem_of_In in Hx as [<-|Hx]; [now apply elem_of_dom|].
    now apply (chain_dests_declared gr s es' v). }
  apply submseteq_length in Hsub.
  change (length (elements (dom (vertices gr))))
    with (size (dom (vertices gr))) in Hsub.
  rewrite size_dom in Hsub. simpl in Hsub.
  unfold dests in Hsub. rewrite length_map in Hsub. lia.
Qed.

(** A variant of [for_each_post] under an invariant of the loop. *)
Lemma for_each_post_inv {St A} (I : St -> Prop) (Q : A -> St -> Prop)
    (l : list A) (body : A -> M St unit) :
  (forall x st, In x l -> I st -> I (body x st).1) ->
  (forall x st, In x l -> I st -> (body x st).2 = Return tt ->
     Q x (body x st).1) ->
  (forall x y st, In y l -> Q x st -> Q x (body y st).1) ->
  forall st, I st -> (for_each l body st).2 = Return tt ->
    forall x, In x l -> Q x (for_each l body st).1.
Proof.
  induction l as [|y l IH]; intros Hinv Hest Hkeep st HI Hret x Hx;
    [destruct Hx|].
  simpl in *. unfold bind in *.
  pose proof (Hest y st (or_introl eq_refl) HI) as Hy.
  pose proof (Hinv y st (or_introl eq_refl) HI) as HI'.
  destruct (body y st) as [st1 [[]| |]] eqn:Hb; try discriminate.
  simpl in Hy, HI'. destruct Hx as [<-|Hx].
  - apply (for_each_keeps (Q y)); [|now apply Hy].
    intros z st' Hz. apply Hkeep. now right.
  - apply IH; [| | |exact HI'|exact Hret|exact Hx].
    + intros z st' Hz. apply Hinv. now right.
    + intros z st' Hz. apply Hest. now right.
    + intros z z' st' Hz. apply Hkeep. now right.
Qed.

(** A relaxation step never raises a distance. *)
Lemma relax_lowers e st v x :
  dists st !! v = Some (Fin x) ->
  exists x', dists (relax e st).1 !! v = Some (Fin x') /\ x' <= x.
Proof.
  intros Hv.
  destruct (relax_cases e st) as [->|(y & dd & _ & Hdst & Hdd & ->)].
  - exists x. split; [exact Hv|lia].
  - simpl. rewrite lookup_insert. case_decide as Heq.
    + subst v. rewrite Hv in Hdst. injection Hdst as <-.
      destruct Hdd as [[=]|(z & [= <-] & Hlt)].
      exists (y + weight e). split; [reflexivity|lia].
    + exists x. split; [exact Hv|lia].
Qed.

Lemma bounded_relax gr s k e st :
  bounded gr s k st -> bounded gr s k (relax e st).1.
Proof.
  intros Hb es v Hch Hlen. destruct (Hb es v Hch Hlen) as (x & Hx & Hle).
  destruct (relax_lowers e st v x Hx) as (x' & Hx' & Hle').
  exists x'. split; [exact Hx'|lia].
Qed.

Lemma relax_pass_unfold st :
  relax_pass st = for_each (edges (g st)) relax st.
Proof. reflexivity. Qed.

(** One pass over the edges makes the bound hold for one edge more. *)
Lemma pass_bounded gr s k st :
  weights_fit gr ->
  bf_inv gr s st -> bounded gr s k st ->
  bounded gr s (S k) (relax_pass st).1.
Proof.
  intros Hfit Hinv Hb.
  destruct (relax_pass_inv gr s st Hfit Hinv) as [_ Hret].
  pose proof Hinv as (Hg & _).
  rewrite relax_pass_unfold, Hg in *.
  pose (Q := fun (e : Edge) (st' : frame) =>
    forall es, chain gr s es (id (source e)) -> (length es <= k)%nat ->
      exists x, dists st' !! id (dest e) = Some (Fin x) /\
                x <= total es + weight e).
  pose (J := fun st' => bf_inv gr s st' /\ bounded gr s k st').
  assert (HJ : J (for_each (edges gr) relax st).1).
  { apply (for_each_keeps J); [|now split].
    intros e st' He [H1 H2]. split; [now apply relax_inv|].
    now apply bounded_relax. }
  assert (HQ : forall e, In e (edges gr) ->
                 Q e (for_each (edges gr) relax st).1).
  { apply (for_each_post_inv J Q); [| | |now split|exact Hret].
    - intros e st' He [H1 H2]. split; [now apply relax_inv|].
      now apply bounded_relax.
    - intros e st' He [(_ & Hk & _) H2] _ es Hch Hlen.
      destruct (H2 es _ Hch Hlen) as (xs & Hxs & Hle).
      destruct (Hk e He) as [_ [dd Hdd]].
      rewrite relax_unfold, Hxs, Hdd by now apply Hfit.
      change (dist_plus (Fin xs) (weight e)) with (Fin (xs + weight e)).
      destruct (dist_gt dd (Fin (xs + weight e))) eqn:Hgt; simpl.
      + rewrite lookup_insert_eq. exists (xs + weight e).
        split; [reflexivity|lia].
      + apply dist_gt_Fin_inv in Hgt as (y & -> & Hy).
        exists y. split; [exact Hdd|lia].
    - intros e e' st' _ HQe es Hch Hlen.
      destruct (HQe es Hch Hlen) as (x & Hx & Hle).
      destruct (relax_lowers e' st' _ x Hx) as (x' & Hx' & Hle').
      exists x'. split; [exact Hx'|lia]. }
  intros es v Hch Hlen.
  destruct es as [|e es _] using rev_ind.
  - apply (proj2 HJ); [exact Hch|simpl; lia].
  - apply chain_snoc_inv in Hch as (Hch & He & <-).
    rewrite length_app in Hlen. simpl in Hlen.
    destruct (HQ e He es Hch) as (x & Hx & Hle); [lia|].
    exists x. split; [exact Hx|].
    rewrite total_app. unfold total at 2. simpl. lia.
Qed.

(** [m] passes make the bound hold for [m] edges more. *)
Lemma passes_bounded gr s (m : nat) :
  weights_fit gr ->
  forall (a k : nat) st,
    bf_inv gr s st -> bounded gr s k st ->
    bf_inv gr s (for_each (seq a m) (fun _ => relax_pass) st).1 /\
    bounded gr s (k + m) (for_each (seq a m) (fun _ => relax_pass) st).1.
Proof.
  intros Hfit.
  induction m as [|m IH]; intros a k st Hinv Hb; simpl.
  - split; [exact Hinv|]. now rewrite Nat.add_0_r.
  - unfold bind.
    destruct (relax_pass_inv gr s st Hfit Hinv) as [Hinv' Hret].
    pose proof (pass_bounded gr s k st Hfit Hinv Hb) as Hb'.
    destruct (relax_pass st) as [st1 o]. simpl in *. subst o.
    replace (k + S m)%nat with (S k + m)%nat by lia.
    now apply IH.
Qed.

(** After the passes, without negative cycles, the bound holds for every
    chain of edges from the start vertex. *)
Lemma passes_settle gr s :
  wf_edges gr -> weights_fit gr ->
  is_Some (vertices gr !! s) -> no_negative_cycle gr s ->
  forall es v, chain gr s es v ->
    exists x, dists (after_passes gr s).1 !! v = Some (Fin x) /\
              x <= total es.
Proof.
  intros Hwf Hfit Hs Hnn es v Hch.
  destruct (chain_short gr s es v Hwf Hs Hnn Hch) as (es' & Hch' & Htot & Hlen).
  pose proof (start_inv gr s Hwf) as H0.
  assert (Hb0 : bounded gr s 0 (set_dists s (Fin 0) (enter gr)).1).
  { intros es0 v0 Hch0 Hlen0. destruct es0; [|simpl in Hlen0; lia].
    simpl in Hch0. subst v0. exists 0. simpl.
    rewrite lookup_insert_eq. split; [reflexivity|unfold total; simpl; lia]. }
  destruct (passes_bounded gr s (size (vertices gr) - 1) Hfit 1 0 _ H0 Hb0)
    as [_ Hb].
  rewrite after_passes_unfold.
  change (relax_passes (set_dists s (Fin 0) (enter gr)).1)
    with (for_each (seq 1 (size (vertices gr) - 1)) (fun _ => relax_pass)
            (set_dists s (Fin 0) (enter gr)).1).
  destruct (Hb es' v Hch') as (x & Hx & Hle); [simpl; lia|].
  exists x. split; [exact Hx|lia].
Qed.

(** X13: on a graph whose edges join declared vertices and whose weights
    convert to float, with a declared start vertex from which no cycle of
    negative weight can be reached, [bellman_ford] returns its two maps:
    it raises neither [NegativeEdgeCycleError] nor anything else. *)
Theorem returns_without_negative_cycle gr s :
  wf_edges gr -> weights_fit gr ->
  is_Some (vertices gr !! s) -> no_negative_cycle gr s ->
  exists d p, bellman_ford gr s = (gr, Return (d, p)).
Proof.
  intros Hwf Hfit Hs Hnn.
  destruct (after_passes_returns gr s Hwf Hfit)
    as (st & Hst & Hg & Hk & _).
  pose proof (passes_sound gr s) as Hsound.
  pose proof (passes_settle gr s Hwf Hfit Hs Hnn) as Hsettle.
  rewrite Hst in Hsound, Hsettle. simpl in Hsound, Hsettle.
  rewrite bellman_ford_unfold, Hst, check_cycles_unfold, Hg.
  rewrite for_each_check;
    [|exact Hk|intros e ds He _; apply dist_add_fits; now apply Hfit].
  destruct (find (improvable st) (edges gr)) as [e|] eqn:Hfind.
  - exfalso. apply find_some in Hfind as [He Himp].
    unfold improvable in Himp.
    destruct (dists st !! id (source e)) as [[x|]|] eqn:Hsrc;
      try discriminate.
    2:{ destruct (dists st !! id (dest e)); discriminate. }
    destruct (walk_chain gr s _ x (Hsound _ _ Hsrc)) as (es & Hch & Htot).
    assert (Hch' : chain gr s (es ++ [e]) (id (dest e))).
    { apply (chain_app gr s es (id (source e))); [exact Hch|].
      simpl. auto. }
    destruct (Hsettle _ _ Hch') as (y & Hy & Hle).
    rewrite Hy in Himp. simpl in Himp. apply Z.ltb_lt in Himp.
    rewrite total_app in Hle. unfold total at 2 in Hle. simpl in Hle. lia.
  - rewrite Hg. eauto.
Qed.

(** A graph without edges of negative weight has no cycle of negative
    weight. *)
Lemma nonnegative_no_negative_cycle gr s :
  (forall e, In e (edges gr) -> 0 <= weight e) -> no_negative_cycle gr s.
Proof.
  intros Hpos u w c _ Hc.
  induction Hc as [u|e v c He _ IH]; [lia|].
  pose proof (Hpos e He). lia.
Qed.

Lemma returns_without_negative_cycle_witness :
  exists d p, bellman_ford scenario 0 = (scenario, Return (d, p)).
Proof.
  apply (returns_without_negative_cycle scenario 0).
  - exact scenario_wf_edges.
  - exact scenario_weights_fit.
  - vm_compute. eauto.
  - apply nonnegative_no_negative_cycle. intros e He. simpl in He.
    repeat (destruct He as [<-|He]; [simpl; lia|]). destruct He.
Defined.
End BellmanFordConverges.

(** * Runs that end alike *)

Section Simulation.
Context {St1 St2 : Type} (R : St1 -> St2 -> Prop).

Lemma ret_sim {A} (a : A) s1 s2 :
  R s1 s2 -> sim R (ret a s1) (ret a s2).
Proof. intros HR. now split. Qed.

Lemma raise_sim {A} (e : exn) s1 s2 :
  R s1 s2 -> sim R (@raise St1 A e s1) (@raise St2 A e s2).
Proof. intros HR. now split. Qed.

Lemma bind_sim {A B} (m1 : M St1 A) (m2 : M St2 A)
    (k1 : A -> M St1 B) (k2 : A -> M St2 B) s1 s2 :
  sim R (m1 s1) (m2 s2) ->
  (forall a s1' s2', R s1' s2' -> sim R (k1 a s1') (k2 a s2')) ->
  sim R (bind m1 k1 s1) (bind m2 k2 s2).
Proof.
  intros [HR Ho] Hk. unfold bind.
  destruct (m1 s1) as [s1' o1], (m2 s2) as [s2' o2]. simpl in *. subst o2.
  destruct o1 as [a| |]; [now apply Hk|now split|now split].
Qed.

Lemma getitem_sim {V} (d1 : St1 -> gmap Z V) (d2 : St2 -> gmap Z V) k s1 s2 :
  R s1 s2 -> d1 s1 = d2 s2 ->
  sim R (getitem d1 k s1) (getitem d2 k s2).
Proof.
  intros HR Hd. unfold getitem. rewrite Hd.
  destruct (d2 s2 !! k); now split.
Qed.

Lemma for_each_sim {A} (l : list A) (f1 : A -> M St1 unit)
    (f2 : A -> M St2 unit) :
  (forall x s1 s2, In x l -> R s1 s2 -> sim R (f1 x s1) (f2 x s2)) ->
  forall s1 s2, R s1 s2 -> sim R (for_each l f1 s1) (for_each l f2 s2).
Proof.
  induction l as [|x l IH]; intros Hf s1 s2 HR; simpl; [now split|].
  apply bind_sim; [apply Hf; [now left|exact HR]|].
  intros _ s1' s2' HR'. apply IH; [|exact HR'].
  intros y t1 t2 Hy. apply Hf. now right.
Qed.

Lemma while_sim (c1 : M St1 bool) (c2 : M St2 bool)
    (b1 : M St1 ctl) (b2 : M St2 ctl) :
  (forall s1 s2, R s1 s2 -> sim R (c1 s1) (c2 s2)) ->
  (forall s1 s2, R s1 s2 -> sim R (b1 s1) (b2 s2)) ->
  forall fuel s1 s2, R s1 s2 ->
    sim R (while fuel c1 b1 s1) (while fuel c2 b2 s2).
Proof.
  intros Hc Hb. induction fuel as [|n IH]; intros s1 s2 HR; simpl;
    [now split|].
  apply bind_sim; [now apply Hc|].
  intros [|] s1' s2' HR'; [|now split].
  apply bind_sim; [now apply Hb|].
  intros [|] t1 t2 HR2; [now apply IH|now split].
Qed.
End Simulation.

(** * The order of the keys *)

Section Enumerations.
Context {V : Type}.

Lemma lookup_foldl_insert (v : V) (ks : list Z) (d : gmap Z V) k :
  foldl (fun d key => <[key := v]> d) d ks !! k =
    if decide (k ∈ ks) then Some v else d !! k.
Proof.
  revert d. induction ks as [|a ks IH]; intros d; simpl.
  - destruct (decide (k ∈ [])) as [H|_]; [|reflexivity].
    now apply elem_of_nil in H.
  - rewrite IH.
    destruct (decide (k ∈ ks)) as [Hin|Hnin].
    + destruct (decide (k ∈ a :: ks)) as [_|H]; [reflexivity|].
      exfalso. apply H. now right.
    + destruct (decide (a = k)) as [->|Hne].
      * rewrite lookup_insert_eq.
        destruct (decide (k ∈ k :: ks)) as [_|H]; [reflexivity|].
        exfalso. apply H. now left.
      * rewrite lookup_insert_ne by exact Hne.
        destruct (decide (k ∈ a :: ks)) as [H|_]; [|reflexivity].
        apply elem_of_cons in H as [H|H]; [congruence|contradiction].
Qed.

(** The dictionary a comprehension builds does not depend on the order in
    which the keys come. *)
Lemma dict_of_keys_fmap {W} (ks : list Z) (d : gmap Z W) (v : V) :
  enumerates ks d -> dict_of_keys ks v = (fun _ => v) <$> d.
Proof.
  intros Hks. apply map_eq. intros k.
  unfold dict_of_keys. rewrite lookup_foldl_insert, lookup_fmap.
  destruct (decide (k ∈ ks)) as [Hin|Hnin].
  - apply list_elem_of_In, Hks in Hin as [w ->]. reflexivity.
  - rewrite lookup_empty.
    destruct (d !! k) as [w|] eqn:Hk; [|reflexivity].
    exfalso. apply Hnin. apply list_elem_of_In, Hks. eauto.
Qed.

Lemma enumerates_rev (ks : list Z) (d : gmap Z V) :
  enumerates ks d -> enumerates (rev ks) d.
Proof. intros Hks k. rewrite <- in_rev. apply Hks. Qed.

Lemma enumerates_list_to_map (l : list (Z * V)) :
  enumerates (map fst l) (list_to_map l).
Proof.
  intros k. rewrite <- list_elem_of_In, <- elem_of_dom, dom_list_to_map_L.
  rewrite elem_of_list_to_set. reflexivity.
Qed.
End Enumerations.

(** * The priority queue *)

Section QueueFacts.
Import Dijkstra.

Lemma tuple_le_spec a b :
  tuple_le a b = true <-> a.1 < b.1 \/ (a.1 = b.1 /\ a.2 <= b.2).
Proof.
  unfold tuple_le.
  rewrite orb_true_iff, andb_true_iff, Z.ltb_lt, Z.eqb_eq, Z.leb_le.
  reflexivity.
Qed.

Lemma tuple_le_refl a : tuple_le a a = true.
Proof. apply tuple_le_spec. lia. Qed.

Lemma tuple_le_trans a b c :
  tuple_le a b = true -> tuple_le b c = true -> tuple_le a c = true.
Proof. rewrite !tuple_le_spec. lia. Qed.

Lemma tuple_le_total a b : tuple_le a b = false -> tuple_le b a = true.
Proof.
  intros H. apply not_true_iff_false in H.
  rewrite tuple_le_spec in H. apply tuple_le_spec. lia.
Qed.

(** Tuples that compare equal are the same tuple. *)
Lemma tuple_le_antisym a b :
  tuple_le a b = true -> tuple_le b a = true -> a = b.
Proof.
  rewrite !tuple_le_spec. destruct a as [a1 a2], b as [b1 b2]. simpl.
  intros H1 H2. f_equal; lia.
Qed.

Lemma insert_sorted_perm x q : insert_sorted x q ≡ₚ x :: q.
Proof.
  induction q as [|y q IH]; simpl; [reflexivity|].
  destruct (tuple_le x y); [reflexivity|].
  rewrite IH. apply perm_swap.
Qed.

Lemma insert_sorted_sorted x q : sorted q -> sorted (insert_sorted x q).
Proof.
  induction q as [|y q IH]; simpl; [intros _; split; [constructor|exact I]|].
  intros [Hy Hq]. destruct (tuple_le x y) eqn:Hxy; simpl.
  - split; [|now split]. constructor; [exact Hxy|].
    eapply Forall_impl; [exact Hy|].
    intros z Hz. simpl in Hz. now apply (tuple_le_trans x y z).
  - split; [|now apply IH].
    rewrite insert_sorted_perm. constructor; [|exact Hy].
    now apply tuple_le_total.
Qed.

Lemma sorted_queue_lawful : lawful sorted_queue.
Proof.
  exists sorted. split; [exact I|]. split.
  - intros x q Hq. split; [now apply insert_sorted_sorted|].
    apply insert_sorted_perm.
  - intros [|x q]; simpl; [reflexivity|].
    intros [Hx Hq]. now split.
Qed.

Lemma take_min_spec q : forall x,
  (take_min x q).1 :: (take_min x q).2 ≡ₚ x :: q /\
  Forall (fun y => tuple_le (take_min x q).1 y = true) (take_min x q).2 /\
  tuple_le (take_min x q).1 x = true.
Proof.
  induction q as [|y q IH]; intros x; simpl.
  - split; [reflexivity|]. split; [constructor|apply tuple_le_refl].
  - destruct (tuple_le x y) eqn:Hxy.
    + destruct (IH x) as (Hp & Hall & Hle).
      destruct (take_min x q) as [m r]. simpl in *.
      split; [|split; [|exact Hle]].
      * rewrite perm_swap, Hp. apply perm_swap.
      * constructor; [|exact Hall]. now apply (tuple_le_trans m x y).
    + apply tuple_le_total in Hxy.
      destruct (IH y) as (Hp & Hall & Hle).
      destruct (take_min y q) as [m r]. simpl in *.
      split; [|split].
      * rewrite perm_swap, Hp. reflexivity.
      * constructor; [|exact Hall]. now apply (tuple_le_trans m y x).
      * now apply (tuple_le_trans m y x).
Qed.

Lemma lazy_queue_lawful : lawful lazy_queue.
Proof.
  exists (fun _ => True). split; [exact I|]. split.
  - intros x q _. split; [exact I|reflexivity].
  - intros [|x q] _; simpl; [reflexivity|].
    destruct (take_min_spec q x) as (Hp & Hall & _).
    destruct (take_min x q) as [m r]. simpl in *. now split.
Qed.

(** The smallest item of a list is the same, however the list is
    ordered. *)
Lemma least_unique x q y q0 :
  x :: q ≡ₚ y :: q0 ->
  Forall (fun z => tuple_le x z = true) q ->
  Forall (fun z => tuple_le y z = true) q0 ->
  x = y /\ q ≡ₚ q0.
Proof.
  intros Hp Hx Hy.
  assert (Hxy : tuple_le x y = true).
  { assert (Hin : y ∈ x :: q) by (rewrite Hp; now left).
    apply elem_of_cons in Hin as [->|Hin]; [apply tuple_le_refl|].
    rewrite Forall_forall in Hx. now apply Hx. }
  assert (Hyx : tuple_le y x = true).
  { assert (Hin : x ∈ y :: q0) by (rewrite <- Hp; now left).
    apply elem_of_cons in Hin as [->|Hin]; [apply tuple_le_refl|].
    rewrite Forall_forall in Hy. now apply Hy. }
  pose proof (tuple_le_antisym x y Hxy Hyx) as ->.
  split; [reflexivity|]. now apply Permutation_cons_inv in Hp.
Qed.
End QueueFacts.

(** * Dijkstra with any lawful queue *)

Section DijkstraRuns.
Import Dijkstra.
Variable Q : Queue.
Variable ok : list (Z * Z) -> Prop.
Hypothesis ok_nil : ok [].
Hypothesis ok_put :
  forall x q, ok q -> ok (q_put Q x q) /\ q_put Q x q ≡ₚ x :: q.
Hypothesis ok_get :
  forall q, ok q ->
    match q_get Q q with
    | None => q = []
    | Some (x, q') =>
        ok q' /\ x :: q' ≡ₚ q /\ Forall (fun y => tuple_le x y = true) q'
    end.

Lemma set_dists_agree k v st st0 :
  agree ok st st0 -> sim (agree ok) (set_dists k v st) (set_dists k v st0).
Proof.
  intros (Hg & Hp & Hd & Hq). split; [|reflexivity].
  unfold agree. simpl. now rewrite Hd.
Qed.

Lemma set_prevs_agree k v st st0 :
  agree ok st st0 -> sim (agree ok) (set_prevs k v st) (set_prevs k v st0).
Proof.
  intros (Hg & Hp & Hd & Hq). split; [|reflexivity].
  unfold agree. simpl. now rewrite Hp.
Qed.

Lemma put_agree x st st0 :
  agree ok st st0 -> sim (agree ok) (put_with Q x st) (put x st0).
Proof.
  intros (Hg & Hp & Hd & Hq & Hok & Hs). split; [|reflexivity].
  unfold agree. simpl.
  destruct (ok_put x (nodePQ st) Hok) as [Hok' Hperm].
  do 3 (split; [assumption|]). split; [|split].
  - now rewrite Hperm, insert_sorted_perm, Hq.
  - exact Hok'.
  - now apply insert_sorted_sorted.
Qed.

(** [get] takes the same item out of both queues. *)
Lemma get_agree st st0 :
  agree ok st st0 -> sim (agree ok) (get_with Q st) (get st0).
Proof.
  intros (Hg & Hp & Hd & Hq & Hok & Hs).
  unfold get_with, get. pose proof (ok_get (nodePQ st) Hok) as Hget.
  destruct (nodePQ st0) as [|y q0] eqn:H0.
  - apply Permutation_nil_r in Hq.
    destruct (q_get Q (nodePQ st)) as [[x q]|].
    + destruct Hget as (_ & Hperm & _). rewrite Hq in Hperm.
      symmetry in Hperm. now apply Permutation_nil_cons in Hperm.
    + split; [|reflexivity]. unfold agree. simpl.
      rewrite H0, Hq. now repeat split.
  - destruct (q_get Q (nodePQ st)) as [[x q]|].
    + destruct Hget as (Hok' & Hperm & Hall).
      destruct Hs as [Hy Hs].
      destruct (least_unique x q y q0) as [-> Hqq];
        [now rewrite Hperm|exact Hall|exact Hy|].
      split; [|reflexivity]. unfold agree. simpl. now repeat split.
    + rewrite Hget in Hq. now apply Permutation_nil_cons in Hq.
Qed.

Lemma not_empty_agree st st0 :
  agree ok st st0 -> sim (agree ok) (not_empty st) (not_empty st0).
Proof.
  intros Hag. split; [exact Hag|].
  destruct Hag as (_ & _ & _ & Hq & _). unfold not_empty, gets. simpl.
  destruct (nodePQ st) as [|x q], (nodePQ st0) as [|y q0];
    try reflexivity.
  - now apply Permutation_nil_cons in Hq.
  - symmetry in Hq. now apply Permutation_nil_cons in Hq.
Qed.

Lemma getnode_agree k st st0 :
  agree ok st st0 -> sim (agree ok) (getnode k st) (getnode k st0).
Proof.
  intros Hag. apply getitem_sim; [exact Hag|].
  destruct Hag as (Hg & _). now rewrite Hg.
Qed.

Lemma relax_agree currentNode edge st st0 :
  agree ok st st0 ->
  sim (agree ok) (relax_with Q currentNode edge st)
                 (relax currentNode edge st0).
Proof.
  intros Hag. unfold relax_with, relax.
  apply bind_sim; [apply getitem_sim; [exact Hag|apply Hag]|].
  intros [u|] st1 st1' Hag1; [now apply ret_sim|].
  apply bind_sim; [apply getitem_sim; [exact Hag1|apply Hag1]|].
  intros [d|] st2 st2' Hag2; [|now apply raise_sim].
  apply bind_sim; [now apply set_dists_agree|].
  intros _ st3 st3' Hag3.
  apply bind_sim; [now apply set_prevs_agree|].
  intros _ st4 st4' Hag4. now apply put_agree.
Qed.

Lemma process_agree endID st st0 :
  agree ok st st0 ->
  sim (agree ok) (process_with Q endID st) (process endID st0).
Proof.
  intros Hag. unfold process_with, process.
  apply bind_sim; [now apply get_agree|].
  intros item st1 st1' Hag1.
  apply bind_sim; [now apply getnode_agree|].
  intros currentNode st2 st2' Hag2.
  destruct (bool_decide (item.2 = endID)); [now apply ret_sim|].
  apply bind_sim; [|intros _ st3 st3' Hag3; now apply ret_sim].
  apply for_each_sim; [|exact Hag2].
  intros edge t1 t2 _ Ht. now apply relax_agree.
Qed.

Lemma search_agree fuel startID endID st st0 :
  agree ok st st0 ->
  sim (agree ok) (search_with Q fuel startID endID st)
                 (search fuel startID endID st0).
Proof.
  intros Hag. unfold search_with, search.
  apply bind_sim; [now apply set_dists_agree|].
  intros _ st1 st1' Hag1.
  apply bind_sim; [now apply getnode_agree|].
  intros start st2 st2' Hag2.
  apply bind_sim; [now apply put_agree|].
  intros _ st3 st3' Hag3.
  apply while_sim; [| |exact Hag3].
  - intros t1 t2 Ht. now apply not_empty_agree.
  - intros t1 t2 Ht. now apply process_agree.
Qed.

Lemma walk_back_agree fuel startID : forall currentNode path_back st st0,
  agree ok st st0 ->
  sim (agree ok) (walk_back fuel startID currentNode path_back st)
                 (walk_back fuel startID currentNode path_back st0).
Proof.
  induction fuel as [|n IH]; intros c path st st0 Hag; simpl;
    [now split|].
  destruct (bool_decide (c <> startID)); [|now apply ret_sim].
  apply bind_sim; [apply getitem_sim; [exact Hag|apply Hag]|].
  intros [c'|] st1 st1' Hag1; [now apply IH|now apply raise_sim].
Qed.

Lemma finish_agree fuel startID endID st st0 :
  agree ok st st0 ->
  sim (agree ok) (finish fuel startID endID st)
                 (finish fuel startID endID st0).
Proof.
  intros Hag. unfold finish.
  apply bind_sim; [apply getitem_sim; [exact Hag|apply Hag]|].
  intros [u|] st1 st1' Hag1; [|now apply ret_sim].
  apply bind_sim; [now apply getnode_agree|].
  intros currentNode st2 st2' Hag2.
  apply bind_sim; [now apply walk_back_agree|].
  intros path_back st3 st3' Hag3.
  apply bind_sim; [apply getitem_sim; [exact Hag3|apply Hag3]|].
  intros d st4 st4' Hag4. now apply ret_sim.
Qed.

Lemma body_agree fuel startID endID st st0 :
  agree ok st st0 ->
  sim (agree ok) (body_with Q fuel startID endID st)
                 (body fuel startID endID st0).
Proof.
  intros Hag. unfold body_with, body.
  apply bind_sim; [now apply search_agree|].
  intros _ st1 st1' Hag1. now apply finish_agree.
Qed.
End DijkstraRuns.

(** * Two runs on the same graph *)

Section Determinism.

(** A run with a lawful queue ends as the run of the model does, with the
    same dictionaries, whatever the order of the keys. *)
Lemma call_with_reference Q ks fuel gr s t :
  Dijkstra.lawful Q -> enumerates ks (Dijkstra.nodes gr) ->
  sim (fun st st0 =>
         Dijkstra.g st = Dijkstra.g st0 /\
         Dijkstra.prevs st = Dijkstra.prevs st0 /\
         Dijkstra.dists st = Dijkstra.dists st0)
      (Dijkstra.call_with Q ks fuel gr s t)
      (Dijkstra.body fuel s t (Dijkstra.enter gr)).
Proof.
  intros (ok & Hnil & Hput & Hget) Hks.
  unfold Dijkstra.call_with, Dijkstra.enter_from.
  rewrite (dict_of_keys_fmap ks (Dijkstra.nodes gr)) by exact Hks.
  destruct (body_agree Q ok Hnil Hput Hget fuel s t
              (Dijkstra.enter gr) (Dijkstra.enter gr)) as [Hag Hout].
  - unfold Dijkstra.agree. simpl. now repeat split.
  - split; [|exact Hout].
    destruct Hag as (Hg & Hp & Hd & _). now repeat split.
Qed.

Lemma dijkstra_with_reference Q ks fuel gr s t :
  Dijkstra.lawful Q -> enumerates ks (Dijkstra.nodes gr) ->
  Dijkstra.dijkstra_with Q ks fuel gr s t = Dijkstra.dijkstra fuel gr s t.
Proof.
  intros HQ Hks.
  destruct (call_with_reference Q ks fuel gr s t HQ Hks)
    as [(Hg & _) Hout].
  unfold Dijkstra.dijkstra_with, Dijkstra.dijkstra.
  destruct (Dijkstra.call_with Q ks fuel gr s t) as [st r].
  destruct (Dijkstra.body fuel s t (Dijkstra.enter gr)) as [st0 r0].
  simpl in *. now rewrite Hg, Hout.
Qed.

Lemma call_from_reference ks gr s :
  enumerates ks (BellmanFord.vertices gr) ->
  BellmanFord.call_from ks gr s
    = BellmanFord.body s (BellmanFord.enter gr).
Proof.
  intros Hks. unfold BellmanFord.call_from, BellmanFord.enter_from.
  rewrite !(dict_of_keys_fmap ks (BellmanFord.vertices gr)) by exact Hks.
  reflexivity.
Qed.

Lemma bellman_ford_from_reference ks gr s :
  enumerates ks (BellmanFord.vertices gr) ->
  BellmanFord.bellman_ford_from ks gr s = BellmanFord.bellman_ford gr s.
Proof.
  intros Hks. unfold BellmanFord.bellman_ford_from.
  now rewrite call_from_reference.
Qed.

(** C8: two runs on the same graph, the second on the graph as the first
    left it, end alike, whatever lawful priority queue each run uses and
    in whatever order iterating over the dictionary of the graph gives
    each run the keys: [dijkstra] ends with the same distance and
    predecessor maps and the same outcome (the same path and distance, or
    the same exception), [bellman_ford] in the same frame, with the same
    maps and the same outcome. *)
Theorem second_run_agrees (Q1 Q2 : Dijkstra.Queue) (ks1 ks2 : list Z)
    fuel (dg : Dijkstra.Graph) s t
    (vs1 vs2 : list Z) (bg : BellmanFord.Graph) s' :
  Dijkstra.lawful Q1 -> Dijkstra.lawful Q2 ->
  enumerates ks1 (Dijkstra.nodes dg) ->
  enumerates ks2 (Dijkstra.nodes dg) ->
  enumerates vs1 (BellmanFord.vertices bg) ->
  enumerates vs2 (BellmanFord.vertices bg) ->
  let d1 := Dijkstra.call_with Q1 ks1 fuel dg s t in
  let d2 := Dijkstra.call_with Q2 ks2 fuel (Dijkstra.g d1.1) s t in
  let b1 := BellmanFord.call_from vs1 bg s' in
  let b2 := BellmanFord.call_from vs2 (BellmanFord.g b1.1) s' in
  (Dijkstra.dists d2.1 = Dijkstra.dists d1.1 /\
   Dijkstra.prevs d2.1 = Dijkstra.prevs d1.1 /\
   d2.2 = d1.2 /\
   Dijkstra.dijkstra_with Q2 ks2 fuel
     (Dijkstra.dijkstra_with Q1 ks1 fuel dg s t).1 s t
     = Dijkstra.dijkstra_with Q1 ks1 fuel dg s t) /\
  (b2 = b1 /\
   BellmanFord.bellman_ford_from vs2
     (BellmanFord.bellman_ford_from vs1 bg s').1 s'
     = BellmanFord.bellman_ford_from vs1 bg s').
Proof.
  intros HQ1 HQ2 Hks1 Hks2 Hvs1 Hvs2. simpl. split.
  - assert (Hg1 : Dijkstra.g (Dijkstra.call_with Q1 ks1 fuel dg s t).1 = dg).
    { pose proof (dijkstra_graph fuel dg s t) as Hg.
      destruct (call_with_reference Q1 ks1 fuel dg s t HQ1 Hks1)
        as [(Hg1 & _) _].
      rewrite Hg1. unfold Dijkstra.dijkstra in Hg.
      now destruct (Dijkstra.body fuel s t (Dijkstra.enter dg)). }
    rewrite Hg1.
    destruct (call_with_reference Q1 ks1 fuel dg s t HQ1 Hks1)
      as [(_ & Hp1 & Hd1) Ho1].
    destruct (call_with_reference Q2 ks2 fuel dg s t HQ2 Hks2)
      as [(_ & Hp2 & Hd2) Ho2].
    split; [congruence|]. split; [congruence|]. split; [congruence|].
    rewrite (dijkstra_with_reference Q1) by assumption.
    rewrite dijkstra_graph.
    now rewrite (dijkstra_with_reference Q2) by assumption.
  - assert (Hg1 : BellmanFord.g (BellmanFord.call_from vs1 bg s').1 = bg).
    { pose proof (bellman_ford_graph bg s') as Hg.
      rewrite call_from_reference by exact Hvs1.
      unfold BellmanFord.bellman_ford in Hg.
      now destruct (BellmanFord.body s' (BellmanFord.enter bg)). }
    rewrite Hg1. split.
    + now rewrite !call_from_reference.
    + rewrite (bellman_ford_from_reference vs1) by assumption.
      rewrite bellman_ford_graph.
      now rewrite (bellman_ford_from_reference vs2) by assumption.
Qed.

(** The scenario graphs, the first run with the queue in increasing order
    and the keys in increasing order, the second with the queue that
    keeps the items as they come and the keys in decreasing order. *)
Lemma second_run_agrees_witness :
  let d1 := Dijkstra.call_with Dijkstra.sorted_queue [0; 1; 2; 3] 6
              Dijkstra.scenario 0 3 in
  let d2 := Dijkstra.call_with Dijkstra.lazy_queue [3; 2; 1; 0] 6
              (Dijkstra.g d1.1) 0 3 in
  let b1 := BellmanFord.call_from [0; 1; 2; 3] BellmanFord.scenario 0 in
  let b2 := BellmanFord.call_from [3; 2; 1; 0] (BellmanFord.g b1.1) 0 in
  (Dijkstra.dists d2.1 = Dijkstra.dists d1.1 /\
   Dijkstra.prevs d2.1 = Dijkstra.prevs d1.1 /\
   d2.2 = d1.2 /\
   Dijkstra.dijkstra_with Dijkstra.lazy_queue [3; 2; 1; 0] 6
     (Dijkstra.dijkstra_with Dijkstra.sorted_queue [0; 1; 2; 3] 6
        Dijkstra.scenario 0 3).1 0 3
     = Dijkstra.dijkstra_with Dijkstra.sorted_queue [0; 1; 2; 3] 6
         Dijkstra.scenario 0 3) /\
  (b2 = b1 /\
   BellmanFord.bellman_ford_from [3; 2; 1; 0]
     (BellmanFord.bellman_ford_from [0; 1; 2; 3] BellmanFord.scenario 0).1 0
     = BellmanFord.bellman_ford_from [0; 1; 2; 3] BellmanFord.scenario 0).
Proof.
  apply (second_run_agrees Dijkstra.sorted_queue Dijkstra.lazy_queue
           [0; 1; 2; 3] [3; 2; 1; 0] 6 Dijkstra.scenario 0 3
           [0; 1; 2; 3] [3; 2; 1; 0] BellmanFord.scenario 0).
  - exact sorted_queue_lawful.
  - exact lazy_queue_lawful.
  - exact (enumerates_list_to_map
             (map (fun n => (Dijkstra.id n, n))
                [Dijkstra.N 0 [Dijkstra.E 0 1 1; Dijkstra.E 0 2 5];
                 Dijkstra.N 1 [Dijkstra.E 1 2 2];
                 Dijkstra.N 2 [Dijkstra.E 2 3 1]; Dijkstra.N 3 []])).
  - exact (enumerates_rev _ _
             (enumerates_list_to_map
                (map (fun n => (Dijkstra.id n, n))
                   [Dijkstra.N 0 [Dijkstra.E 0 1 1; Dijkstra.E 0 2 5];
                    Dijkstra.N 1 [Dijkstra.E 1 2 2];
                    Dijkstra.N 2 [Dijkstra.E 2 3 1]; Dijkstra.N 3 []]))).
  - exact (enumerates_list_to_map
             (map (fun i => (i, BellmanFord.V i)) [0; 1; 2; 3])).
  - exact (enumerates_rev _ _
             (enumerates_list_to_map
                (map (fun i => (i, BellmanFord.V i)) [0; 1; 2; 3]))).
Defined.
End Determinism.
